(** * Verification of the npm-search change-stream consumer (src/watch.ts,
    src/utils/wait.ts) and of the escaping pass of formatPkg.

    The asynchronous TypeScript code is embedded by making the observable
    calls explicit: every call to a collaborator (the Forwarding Queue, the
    Checkpoint Store, the feed reader, the loggers, the error sink) is an
    [effect], and a run of a piece of code is the list of effects it emits.
    Outcomes of collaborator calls that the code awaits are inputs. *)

From Stdlib Require Import ZArith List String Ascii Bool Lia Sorted Reals Lra.
Import ListNotations.
Open Scope Z_scope.

(** ** Data *)

(** A feed change as consumed by the handler: [change.id] (possibly
    absent) and [change.seq] (the cursor). *)
Record change := mkChange {
  id : option string;
  seq : Z
}.

(** The object passed to [mainQueueIndex.saveObject]. *)
Record queue_record := mkRecord {
  objectID : option string;
  retries : Z;
  rec_change : change
}.

(** Outcome of an awaited collaborator call: it resolves, or it throws
    (the error is identified by a number). *)
Inductive outcome :=
| Ok
| Throw (err : nat).

(** Identifies the three downstream indexers owned by [Watch]. *)
Inductive indexer := OneTime | Periodic | MainWatch.

(** Observable calls made by the code. *)
Inductive effect :=
| Pause                              (* npm.db.changesReader.pause() *)
| Resume                             (* npm.db.changesReader.resume() *)
| SaveObject (r : queue_record)      (* mainQueueIndex.saveObject(r) *)
| LogErrQueue (err : nat)            (* log.err('Error adding a change to the queue.', { err }) *)
| LogRetrying (retry bo : Z)         (* log.info('Retrying (', retry, '), waiting for', bo) *)
| Wait (ms : Z)                      (* wait(ms) *)
| FetchQueueLength                   (* first step of logProgress *)
| CheckpointSave (s : Z)             (* stateManager.save({ seq }) *)
| Report (err : nat)                 (* sentry.report(err) *)
| StopReader                         (* npm.db.changesReader.stop() *)
| StopIndexer (i : indexer)          (* this.<indexer>?.stop?.() *)
| RemoveAllListeners                 (* this.changesReader?.removeAllListeners?.() *)
| LogInfo (msg : string).

(** ** src/utils/wait.ts: backoff *)

(** [Math.pow(x, y)] on a positive base: [e^(y ln x)], for every real
    exponent.  The base [retry + 1] of [backoff] is positive for every
    attempt count [retry >= 0].  Numbers are reals: floating-point
    rounding is not modelled. *)
Definition Math_pow (x y : R) : R := Rpower x y.

(** [bo = Math.min(Math.pow(retry + 1, pow) * 1000, max)] in [backoff]. *)
Definition backoff_bo (retry pow max : R) : R :=
  Rmin (Math_pow (retry + 1) pow * 1000) max.

(** The same computation for an integer exponent [pow >= 0], used by the
    model of the retry loop below: for integer arguments and results
    below 2^53 the floating-point computation is exact, and the two
    agree (theorem [C2_backoff_formula]).  A negative exponent is outside
    this integer model. *)
Definition backoff_delay (retry pow max : Z) : Z :=
  Z.min ((retry + 1) ^ pow * 1000) max.

(** [backoff(retry, pow, max)]: logs, then waits [bo] milliseconds. *)
Definition backoff (retry pow max : Z) : list effect :=
  let bo := backoff_delay retry pow max in
  [LogRetrying retry bo; Wait bo].

(** ** src/watch.ts: storeChange *)

Section StoreChange.

(** [config.retryBackoffPow] and [config.retryBackoffMax]. *)
Variables retryBackoffPow retryBackoffMax : Z.

(** [storeChange(retry)] for the change [ch].  [outs] lists the outcomes
    of the successive [saveObject] calls; when it runs out, the last
    [saveObject] call never settles.  Result: the effects emitted and
    whether the promise of [storeChange] resolved. *)
Fixpoint storeChange (ch : change) (retry : Z) (outs : list outcome)
  : list effect * bool :=
  let r := mkRecord (id ch) 0 ch in
  match outs with
  | [] => ([SaveObject r], false)
  | Ok :: _ => ([SaveObject r], true)
  | Throw e :: rest =>
      let newRetry := retry + 1 in
      let '(effs, done) := storeChange ch newRetry rest in
      (SaveObject r :: LogErrQueue e
         :: backoff newRetry retryBackoffPow retryBackoffMax ++ effs, done)
  end.

End StoreChange.

(** The waits performed in a list of effects. *)
Definition waits (effs : list effect) : list Z :=
  flat_map (fun e => match e with Wait ms => [ms] | _ => [] end) effs.

(** The records passed to [saveObject] in a list of effects. *)
Definition saved (effs : list effect) : list queue_record :=
  flat_map (fun e => match e with SaveObject r => [r] | _ => [] end) effs.

(** The retry counters passed to [backoff] in a list of effects. *)
Definition backoff_attempts (effs : list effect) : list Z :=
  flat_map (fun e => match e with LogRetrying a _ => [a] | _ => [] end) effs.

(** Queue behaviour "fails [n] times, then succeeds". *)
Definition fail_then_ok (n : nat) : list outcome :=
  repeat (Throw 0) n ++ [Ok].

(** ** src/watch.ts: the 'change' handler and the processing loop *)

(** [!change.id]: true for an absent id and for the empty string. *)
Definition id_falsy (i : option string) : bool :=
  match i with
  | None => true
  | Some s => String.eqb s ""
  end.

Section ChangeReader.

Variables retryBackoffPow retryBackoffMax : Z.

(** The effects the 'change' handler emits synchronously, before its
    callback returns: [pause()], the synchronous prefix of
    [storeChange()] (its first [saveObject] call, whose result is not yet
    known), the first step of [logProgress] (fetching the queue length)
    and [stateManager.save({ seq: change.seq })]. *)
Definition handler_sync (ch : change) : list effect :=
  if id_falsy (id ch) then []
  else
    Pause
      :: fst (storeChange retryBackoffPow retryBackoffMax ch 0 [])
      ++ [FetchQueueLength; CheckpointSave (seq ch)].

(** Where an in-flight [storeChange] chain is suspended: awaiting
    [saveObject], awaiting [backoff], or resolved and waiting for its
    [.then(() => resume())] callback. *)
Inductive phase := AwaitSave | AwaitBackoff | AwaitResume.

Record fwd := mkFwd {
  fch : change;
  fretry : Z;
  fphase : phase
}.

(** State of the consumer: whether the feed reader is paused, the
    in-flight forwards, and the effects emitted so far. *)
Record mstate := mkState {
  paused : bool;
  forwards : list fwd;
  trace : list effect
}.

Definition init_state : mstate := mkState false [] [].

(** The feed delivers [ch] to the handler. *)
Definition deliver (ch : change) (s : mstate) : mstate :=
  if id_falsy (id ch) then s
  else mkState true (forwards s ++ [mkFwd ch 0 AwaitSave])
         (trace s ++ handler_sync ch).

(** One step of the consumer.  The feed reader (nano's changesReader, an
    external library) is taken with the delivery contract of spec 4.3:
    while paused, no change is delivered. *)
Inductive step : mstate -> mstate -> Prop :=
| step_deliver : forall s ch,
    paused s = false ->
    step s (deliver ch s)
| step_save_ok : forall s l1 l2 ch r,
    (* [await saveObject(...)] resolves: the [storeChange] promise resolves *)
    forwards s = l1 ++ mkFwd ch r AwaitSave :: l2 ->
    step s (mkState (paused s) (l1 ++ mkFwd ch r AwaitResume :: l2) (trace s))
| step_save_err : forall s l1 l2 ch r e,
    (* [saveObject] throws: log, then [backoff(newRetry, ...)] *)
    forwards s = l1 ++ mkFwd ch r AwaitSave :: l2 ->
    step s (mkState (paused s) (l1 ++ mkFwd ch (r + 1) AwaitBackoff :: l2)
              (trace s ++ LogErrQueue e
                 :: backoff (r + 1) retryBackoffPow retryBackoffMax))
| step_backoff_done : forall s l1 l2 ch r,
    (* the wait is over: [storeChange(newRetry)] calls [saveObject] again *)
    forwards s = l1 ++ mkFwd ch r AwaitBackoff :: l2 ->
    step s (mkState (paused s) (l1 ++ mkFwd ch r AwaitSave :: l2)
              (trace s ++ [SaveObject (mkRecord (id ch) 0 ch)]))
| step_resume : forall s l1 l2 ch r,
    (* [.then(() => npm.db.changesReader.resume())] *)
    forwards s = l1 ++ mkFwd ch r AwaitResume :: l2 ->
    step s (mkState false (l1 ++ l2) (trace s ++ [Resume])).

Inductive reachable : mstate -> Prop :=
| reach_init : reachable init_state
| reach_step : forall s s', reachable s -> step s s' -> reachable s'.

End ChangeReader.

(** Number of [stateManager.save({ seq: n })] calls in a list of effects. *)
Definition count_checkpoint (n : Z) (effs : list effect) : nat :=
  List.length (filter (fun e => match e with
                           | CheckpointSave m => Z.eqb m n
                           | _ => false end) effs).

(** ** src/watch.ts: Watch.stop *)

(** What [stop()] depends on: the outcome of [npm.db.changesReader.stop()];
    for each indexer whether it exists, whether it has a [stop] method and
    how its (awaited) call ends; whether [this.changesReader] is set. *)
Record watch_cfg := mkWatch {
  reader_stop : outcome;
  oneTimeIndexer : option (option outcome);
  periodicDataIndexer : option (option outcome);
  mainWatchIndexer : option (option outcome);
  has_changesReader : bool
}.

(** [await this.x?.stop?.()]: no call when [x] or its [stop] is missing. *)
Definition optional_stop (i : indexer) (x : option (option outcome))
  : list (effect * outcome) :=
  match x with
  | Some (Some o) => [(StopIndexer i, o)]
  | _ => []
  end.

(** The calls of the [try] block, in order. *)
Definition guarded_calls (w : watch_cfg) : list (effect * outcome) :=
  (StopReader, reader_stop w)
    :: optional_stop OneTime (oneTimeIndexer w)
    ++ optional_stop Periodic (periodicDataIndexer w)
    ++ optional_stop MainWatch (mainWatchIndexer w).

(** A [try] block of sequential calls: the first throw leaves the block. *)
Fixpoint run_guarded (calls : list (effect * outcome))
  : list effect * option nat :=
  match calls with
  | [] => ([], None)
  | (e, Ok) :: rest =>
      let '(es, err) := run_guarded rest in (e :: es, err)
  | (e, Throw x) :: _ => ([e], Some x)
  end.

Definition remove_listeners (w : watch_cfg) : list effect :=
  if has_changesReader w then [RemoveAllListeners] else [].

Definition stop (w : watch_cfg) : list effect :=
  let '(body, err) := run_guarded (guarded_calls w) in
  LogInfo "Stopping Watch..."
    :: body
    ++ match err with Some x => [Report x] | None => [] end
    ++ remove_listeners w
    ++ [LogInfo "Stopped Watch gracefully"].

(** ** formatPkg: JavaScript values, the heap, and the escaping pass *)

Module Js.

(** JavaScript values; objects (and arrays) live in the heap. *)
Inductive jsval :=
| JStr (s : string)
| JNum (z : Z)
| JNaN
| JBool (b : bool)
| JNull
| JUndef
| JRef (l : nat).

(** An object: its own enumerable keys in insertion order with their
    values.  An array is the object with keys "0", "1", ... *)
Definition obj := list (string * jsval).
Definition heap := list obj.

Fixpoint obj_get (o : obj) (k : string) : jsval :=
  match o with
  | [] => JUndef
  | (k', v) :: o' => if String.eqb k k' then v else obj_get o' k
  end.

(** [o[k] = v]: an existing key keeps its position, a new key goes last. *)
Fixpoint obj_set (o : obj) (k : string) (v : jsval) : obj :=
  match o with
  | [] => [(k, v)]
  | (k', v') :: o' =>
      if String.eqb k k' then (k', v) :: o' else (k', v') :: obj_set o' k v
  end.

Definition heap_get (h : heap) (l : nat) : obj := nth l h [].

Fixpoint heap_set (h : heap) (l : nat) (o : obj) : heap :=
  match h, l with
  | [], _ => []
  | _ :: h', O => o :: h'
  | o' :: h', S l' => o' :: heap_set h' l' o
  end.

(** Allocation of a fresh object. *)
Definition alloc (o : obj) (h : heap) : nat * heap :=
  (List.length h, h ++ [o]).

(** Decimal representation of an array index. *)
Fixpoint dec_digits (fuel n : nat) (acc : string) : string :=
  match fuel with
  | O => acc
  | S f =>
      let d := ascii_of_nat (48 + Nat.modulo n 10)%nat in
      if Nat.ltb n 10 then String d acc
      else dec_digits f (Nat.div n 10) (String d acc)
  end.

Definition index_key (n : nat) : string := dec_digits (S n) n EmptyString.

(** An array literal [[v0, v1, ...]]. *)
Definition array_obj (vs : list jsval) : obj :=
  combine (map index_key (List.seq 0 (List.length vs))) vs.

(** The path lookup [root.k1.k2...] used to read the produced document. *)
Fixpoint get_path (h : heap) (v : jsval) (p : list string) : jsval :=
  match p, v with
  | [], _ => v
  | k :: p', JRef l => get_path h (obj_get (heap_get h l) k) p'
  | _ :: _, _ => JUndef
  end.

(** escape-html: double quote, ampersand, single quote, less-than and
    greater-than become [&quot;], [&amp;], [&#39;], [&lt;] and [&gt;]. *)
Fixpoint escape (s : string) : string :=
  match s with
  | EmptyString => EmptyString
  | String c s' =>
      let r := escape s' in
      if Ascii.eqb c "034"%char then ("&quot;" ++ r)%string
      else if Ascii.eqb c "&"%char then ("&amp;" ++ r)%string
      else if Ascii.eqb c "'"%char then ("&#39;" ++ r)%string
      else if Ascii.eqb c "<"%char then ("&lt;" ++ r)%string
      else if Ascii.eqb c ">"%char then ("&gt;" ++ r)%string
      else String c r
  end.

(** [maybeEscape] as a [traverse] callback.  [pk] is [(parent, key)] for
    a non-root node; [this.update(x)] writes [parent.node[key] = x]. *)
Definition maybeEscape (pk : option (nat * string)) (node : jsval) (h : heap)
  : heap :=
  match node, pk with
  | JStr s, Some (l, k) =>
      let x := if String.eqb k "readme" then s else escape s in
      heap_set h l (obj_set (heap_get h l) k (JStr x))
  | _, _ => h
  end.

(** [traverse(root).forEach(cb)]: the mutable walk of traverse.  The
    callback runs on each node before its children; an object whose
    reference is already among the ancestors ([state.circular]) is not
    descended into; children are read from the heap when visited, so
    updates made through another path to a shared object are seen.
    [fuel] bounds the depth. *)
Fixpoint walk (cb : option (nat * string) -> jsval -> heap -> heap)
    (fuel : nat) (parents : list nat) (pk : option (nat * string))
    (node : jsval) (h : heap) : heap :=
  match fuel with
  | O => h
  | S f =>
      let h1 := cb pk node h in
      match node with
      | JRef l =>
          if existsb (Nat.eqb l) parents then h1
          else
            fold_left
              (fun h2 k =>
                 walk cb f (l :: parents) (Some (l, k))
                   (obj_get (heap_get h2 l) k) h2)
              (map fst (heap_get h1 l)) h1
      | _ => h1
      end
  end.

Definition forEach_maybeEscape (fuel : nat) (root : jsval) (h : heap) : heap :=
  walk maybeEscape fuel [] None root h.

End Js.

(** ** formatPkg (src/formatPkg.js) *)

Module FormatPkg.
Import Js.
Local Open Scope string_scope.

(** *** String helpers *)

Definition str_rev (s : string) : string :=
  string_of_list_ascii (rev (list_ascii_of_string s)).

Definition startsWith (s p : string) : bool := String.prefix p s.

Definition endsWith (s suf : string) : bool :=
  String.prefix (str_rev suf) (str_rev s).

(** [name.substring(0, name.length - n)]. *)
Definition drop_last (n : nat) (s : string) : string :=
  substring 0 (String.length s - n) s.

(** The class [[-/@_.]]. *)
Definition sep_char (c : ascii) : bool :=
  existsb (Ascii.eqb c) ["-"; "/"; "@"; "_"; "."]%char.

(** [name.replace(/[-/@_.]+/g, rep)]. *)
Fixpoint replace_seps (rep : string) (in_run : bool) (s : string) : string :=
  match s with
  | EmptyString => EmptyString
  | String c s' =>
      if sep_char c then
        if in_run then replace_seps rep true s'
        else (rep ++ replace_seps rep true s')%string
      else String c (replace_seps rep false s')
  end.

(** [[\w-]]. *)
Definition word_or_dash (c : ascii) : bool :=
  let n := nat_of_ascii c in
  (Nat.leb 48 n && Nat.leb n 57) || (Nat.leb 65 n && Nat.leb n 90)
  || (Nat.leb 97 n && Nat.leb n 122) || Ascii.eqb c "_"%char
  || Ascii.eqb c "-"%char.

(** [@[\w-]+\/vue-cli-plugin-] at the start of the string (after the
    [@]); the run of word characters cannot be shortened, since the next
    character must be a slash. *)
Fixpoint scoped_vue_rest (seen : bool) (s : string) : bool :=
  match s with
  | EmptyString => false
  | String c s' =>
      if word_or_dash c then scoped_vue_rest true s'
      else seen && String.prefix "/vue-cli-plugin-" s
  end.

(** [/^(@vue\/|vue-|@[\w-]+\/vue-)cli-plugin-/.test(name)]. *)
Definition vue_cli_plugin (name : string) : bool :=
  startsWith name "@vue/cli-plugin-" || startsWith name "vue-cli-plugin-"
  || match name with
     | String c s => Ascii.eqb c "@"%char && scoped_vue_rest false s
     | EmptyString => false
     end.

(** Upper-case hexadecimal digit. *)
Definition hex_digit (n : nat) : ascii :=
  if Nat.ltb n 10 then ascii_of_nat (48 + n) else ascii_of_nat (55 + n).

(** [encodeURIComponent] on the UTF-8 bytes of a string: the unreserved
    characters [A-Z a-z 0-9 - _ . ! ~ * ' ( )] are kept, every other byte
    becomes [%HH]. *)
Fixpoint encodeURIComponent (s : string) : string :=
  match s with
  | EmptyString => EmptyString
  | String c s' =>
      let n := nat_of_ascii c in
      if (Nat.leb 48 n && Nat.leb n 57) || (Nat.leb 65 n && Nat.leb n 90)
         || (Nat.leb 97 n && Nat.leb n 122)
         || existsb (Ascii.eqb c) ["-"; "_"; "."; "!"; "~"; "*"; "'"; "("; ")"]%char
      then String c (encodeURIComponent s')
      else String "%" (String (hex_digit (Nat.div n 16))
                         (String (hex_digit (Nat.modulo n 16))
                            (encodeURIComponent s')))
  end.

(** [Array.from(set)] after adding the candidates in order. *)
Fixpoint set_add_all (acc : list string) (xs : list string) : list string :=
  match xs with
  | [] => acc
  | x :: xs' =>
      if existsb (String.eqb x) acc then set_add_all acc xs'
      else set_add_all (acc ++ [x]) xs'
  end.

Definition getAlternativeNames (name : string) : list string :=
  let concatenatedName := replace_seps "" false name in
  let splitName := replace_seps " " false name in
  let isDotJs := endsWith name ".js" in
  let isJsSuffix := endsWith name "js" in
  let variants :=
    if isDotJs then [drop_last 3 name]
    else if isJsSuffix then [drop_last 2 name]
    else [(name ++ ".js")%string; (name ++ "js")%string] in
  set_add_all [] ([concatenatedName; splitName] ++ variants ++ [name]).

(** [registrySubsetRules] applied by [getComputedData] to a package with
    no [keywords] and no [schematics] (so the yeoman and angular rules do
    not match and [computedMetadata] stays [{}]). *)
Definition computedKeywords (name : string) : list string :=
  (if startsWith name "@babel/plugin" || startsWith name "babel-plugin-"
   then ["babel-plugin"] else [])
  ++ (if vue_cli_plugin name then ["vue-cli-plugin"] else [])
  ++ (if startsWith name "webpack-scaffold-" then ["webpack-scaffold"] else []).

(** *** The package fields formatPkg reads *)

(** The normalised package [cleaned = new NicePackage(pkg)] (NicePackage
    is an external library; its output is the input here) and the raw
    fields of [pkg] that formatPkg reads.  The model covers packages with
    no [repository], [author], [license], [keywords], [main], [types],
    [typings], [module], [type], [schematics], [bin], [dependencies] and
    [devDependencies] fields.  Users are objects with string fields. *)
Record pkg_input := mkPkg {
  c_name : string;
  c_version : option string;
  c_description : option string;
  c_homepage : option string;
  c_deprecated : option string;
  c_created : option string;
  c_modified : option string;
  c_lastPublisher : option (list (string * string));
  c_owners : option (list (list (string * string)));
  c_time : option (list (string * string));       (* cleaned.other.time *)
  p_dist_tags : option (list (string * string));  (* pkg['dist-tags'] *)
  p_version_keys : list string;                   (* Object.keys(pkg.versions) *)
  p_readme : option string                        (* pkg.readme *)
}.

Section Format.

(** External libraries: [gravatar-url], [Date.parse], and the clock
    read by [new Date().toISOString()]. *)
Variable gravatarUrl : string -> string.
Variable date_parse : string -> jsval.
Variable now_iso : string.

Definition defaultGravatar : string := "https://www.gravatar.com/avatar/".

Fixpoint field (k : string) (o : list (string * string)) : option string :=
  match o with
  | [] => None
  | (k', v) :: o' => if String.eqb k k' then Some v else field k o'
  end.

Definition str_obj (o : list (string * string)) : obj :=
  map (fun kv => (fst kv, JStr (snd kv))) o.

Definition alloc_ref (o : obj) (h : heap) : jsval * heap :=
  let '(l, h') := alloc o h in (JRef l, h').

Definition getGravatar (user : list (string * string)) : string :=
  match field "email" user with
  | None => defaultGravatar
  | Some e =>
      if String.eqb e "" then defaultGravatar
      else match String.index 0 "@" e with
           | None => defaultGravatar
           | Some _ => gravatarUrl e
           end
  end.

(** [formatUser(user)]: a fresh object [{ ...user, avatar, link }]. *)
Definition formatUser (user : list (string * string)) (h : heap)
  : jsval * heap :=
  let name := match field "name" user with
              | Some n => n
              | None => "undefined"
              end in
  let o := obj_set (obj_set (str_obj user) "avatar" (JStr (getGravatar user)))
             "link" (JStr ("https://www.npmjs.com/~" ++ encodeURIComponent name)) in
  alloc_ref o h.

Fixpoint formatUsers (us : list (list (string * string))) (h : heap)
  : list jsval * heap :=
  match us with
  | [] => ([], h)
  | u :: us' =>
      let '(v, h1) := formatUser u h in
      let '(vs, h2) := formatUsers us' h1 in
      (v :: vs, h2)
  end.

(** [getAuthor(cleaned)] without an [author] field. *)
Definition getAuthor (p : pkg_input) (h : heap) : jsval * heap :=
  match c_owners p with
  | Some (u :: _) => formatUser u h
  | _ => (JNull, h)
  end.

(** [getOwner(null, lastPublisher, author)]: the same reference. *)
Definition getOwner (lastPublisher author : jsval) : jsval :=
  match lastPublisher with
  | JNull => author
  | _ => lastPublisher
  end.

(** [getVersions(cleaned, pkg)]. *)
Definition getVersions (p : pkg_input) : obj :=
  match c_time p with
  | Some time =>
      str_obj (filter (fun kv => existsb (String.eqb (fst kv)) (p_version_keys p))
                 time)
  | None => []
  end.

(** [Date.parse(x)]: [Date.parse(undefined)] is [NaN]. *)
Definition Date_parse (o : option string) : jsval :=
  match o with
  | None => JNaN
  | Some d => date_parse d
  end.

Definition truthy_str (o : option string) : option string :=
  match o with
  | Some s => if String.eqb s "" then None else Some s
  | None => None
  end.

(** [formatPkg(pkg)] up to [truncatePackage]: [None] is [undefined];
    otherwise the document [truncated] and the heap.  [truncatePackage]
    is taken on a document within [config.maxObjSize], where it returns
    the shallow copy [{ ...pkg }]. *)
Definition formatPkg_truncated (p : pkg_input) : option (jsval * heap) :=
  (* the raw package's dist-tags object, referenced by [tags] *)
  let '(tags, h0) :=
    match p_dist_tags p with
    | Some t => alloc_ref (str_obj t) []
    | None => (JUndef, [])
    end in
  if String.eqb (c_name p) "" then None else
  let name := c_name p in
  let '(lastPublisher, h1) :=
    match c_lastPublisher p with
    | Some u => formatUser u h0
    | None => (JNull, h0)
    end in
  let '(author, h2) := getAuthor p h1 in
  let version := match truthy_str (c_version p) with
                 | Some v => v | None => "0.0.0" end in
  let '(versions, h3) := alloc_ref (getVersions p) h2 in
  (* githubRepo and repository are null: there is no repository field *)
  match lastPublisher, author with
  | JNull, JNull => None
  | _, _ =>
  let '(dts, h4) := alloc_ref [("possible", JBool true);
                               ("dtsMain", JStr "index.d.ts")] h3 in
  let '(types, h5) := alloc_ref [("ts", dts)] h4 in
  let owner := getOwner lastPublisher author in
  let '(ckw, h6) :=
    alloc_ref (array_obj (map JStr (computedKeywords name))) h5 in
  let '(cmeta, h7) := alloc_ref [] h6 in
  let '(keywords, h8) := alloc_ref [] h7 in
  let '(dependencies, h9) := alloc_ref [] h8 in
  let '(devDependencies, h10) := alloc_ref [] h9 in
  let '(altNames, h11) :=
    alloc_ref (array_obj (map JStr (getAlternativeNames name))) h10 in
  let '(moduleTypes, h12) := alloc_ref (array_obj [JStr "unknown"]) h11 in
  let '(ownerRefs, h13) :=
    formatUsers (match c_owners p with Some us => us | None => [] end) h12 in
  let '(owners, h14) := alloc_ref (array_obj ownerRefs) h13 in
  let '(searchInternal, h15) := alloc_ref [("alternativeNames", altNames)] h14 in
  let rawPkg : obj :=
    [("objectID", JStr name);
     ("name", JStr name);
     ("downloadsLast30Days", JNum 0);
     ("downloadsRatio", JNum 0);
     ("humanDownloadsLast30Days", JStr "0");   (* numeral(0).format('0.[0]a') *)
     ("popular", JBool false);
     ("version", JStr version);
     ("versions", versions);
     ("tags", tags);
     ("description", match truthy_str (c_description p) with
                     | Some d => JStr d | None => JNull end);
     ("dependencies", dependencies);
     ("devDependencies", devDependencies);
     ("originalAuthor", JUndef);
     ("repository", JNull);
     ("githubRepo", JNull);
     ("gitHead", JNull);
     ("readme", match p_readme p with Some r => JStr r | None => JUndef end);
     ("owner", owner);
     ("deprecated", match c_deprecated p with
                    | Some d => JStr d | None => JBool false end);
     ("homepage", match truthy_str (c_homepage p) with
                  | Some u => JStr u | None => JNull end);
     ("license", JNull);
     ("keywords", keywords);
     ("computedKeywords", ckw);
     ("computedMetadata", cmeta);
     ("created", Date_parse (c_created p));
     ("modified", Date_parse (c_modified p));
     ("lastPublisher", lastPublisher);
     ("owners", owners);
     ("bin", JUndef);
     ("types", types);
     ("moduleTypes", moduleTypes);
     ("lastCrawl", JStr now_iso);
     ("_searchInternal", searchInternal)] in
  let '(raw, h16) := alloc_ref rawPkg h15 in
  (* truncatePackage: [let smallerPkg = { ...pkg }] *)
  match raw with
  | JRef l => Some (alloc_ref (heap_get h16 l) h16)
  | _ => None
  end
  end.

(** The depth of the documents built above is at most 4. *)
Definition walk_fuel : nat := 8.

(** [formatPkg(pkg)]: [traverse(truncated).forEach(maybeEscape)] returns
    the root [truncated], whose objects have been updated in place. *)
Definition formatPkg (p : pkg_input) : option (jsval * heap) :=
  match formatPkg_truncated p with
  | Some (root, h) => Some (root, forEach_maybeEscape walk_fuel root h)
  | None => None
  end.

End Format.

End FormatPkg.

(** ** Fields read from package.json: repository, homepage, main *)

Module PkgFields.
Import Js FormatPkg.
Local Open Scope string_scope.

(** JavaScript truthiness. *)
Definition truthy (v : jsval) : bool :=
  match v with
  | JStr s => negb (String.eqb s "")
  | JNum z => negb (Z.eqb z 0)
  | JNaN | JNull | JUndef => false
  | JBool b => b
  | JRef _ => true
  end.

(** [typeof v === 'string']. *)
Definition is_string (v : jsval) : bool :=
  match v with JStr _ => true | _ => false end.

(** [v === s] for a string literal [s]. *)
Definition str_eq (v : jsval) (s : string) : bool :=
  match v with JStr t => String.eqb t s | _ => false end.

(** *** Regular expressions, matched on the characters of the input *)

Definition ob {A B : Type} (o : option A) (f : A -> option B) : option B :=
  match o with Some a => f a | None => None end.

(** Alternatives tried from left to right: the first one with which the
    rest of the pattern matches wins (backtracking order). *)
Fixpoint first_some {A B : Type} (f : A -> option B) (xs : list A)
  : option B :=
  match xs with
  | [] => None
  | x :: xs' => match f x with Some r => Some r | None => first_some f xs' end
  end.

(** A literal at the front of the input; the rest of the input. *)
Fixpoint strip_prefix (p s : string) : option string :=
  match p, s with
  | EmptyString, _ => Some s
  | String a p', String b s' => if Ascii.eqb a b then strip_prefix p' s' else None
  | String _ _, EmptyString => None
  end.

(** The characters [.] does not match (the input is ASCII). *)
Definition line_terminator (c : ascii) : bool :=
  Ascii.eqb c "010"%char || Ascii.eqb c "013"%char.

(** [.] *)
Definition dot (s : string) : option string :=
  match s with
  | String c s' => if line_terminator c then None else Some s'
  | EmptyString => None
  end.

Fixpoint no_line_terminator (s : string) : bool :=
  match s with
  | EmptyString => true
  | String c s' => negb (line_terminator c) && no_line_terminator s'
  end.

Fixpoint no_slash (s : string) : bool :=
  match s with
  | EmptyString => true
  | String c s' => negb (Ascii.eqb c "/") && no_slash s'
  end.

(** [[^/]*] taken greedily: the longest run without a slash, and the
    rest of the input. *)
Fixpoint split_seg (s : string) : string * string :=
  match s with
  | EmptyString => (EmptyString, EmptyString)
  | String c s' =>
      if Ascii.eqb c "/" then (EmptyString, s)
      else let '(a, b) := split_seg s' in (String c a, b)
  end.

(** [([^/]+)\/([^/]+)(\/.+)?$] with its three captures, the last one ""
    when its group does not take part.  A run [[^/]+] is followed by a
    slash or by the end, so a shorter run (backtracking) is followed by a
    character other than a slash and lets nothing match: the longest run
    is the only candidate.  Likewise [.+] must reach the end for [$]. *)
Definition user_project_path (s : string) : option (string * string * string) :=
  let '(user, r1) := split_seg s in
  match user, r1 with
  | String _ _, String c r2 =>
      if Ascii.eqb c "/" then
        let '(project, r3) := split_seg r2 in
        match project, r3 with
        | EmptyString, _ => None
        | _, EmptyString => Some (user, project, EmptyString)
        | _, String c' t =>
            if Ascii.eqb c' "/" && negb (String.eqb t "") && no_line_terminator t
            then Some (user, project, r3) else None
        end
      else None
  | _, _ => None
  end.

(** [/^https:\/\/(?:www\.)?github.com\/([^/]+)\/([^/]+)(\/.+)?$/]; the
    dot between [github] and [com] is not escaped. *)
Definition github_re (s : string) : option (string * string * string) :=
  ob (strip_prefix "https://" s) (fun s1 =>
  first_some (fun www =>
    ob (strip_prefix www s1) (fun s2 =>
    ob (strip_prefix "github" s2) (fun s3 =>
    ob (dot s3) (fun s4 =>
    ob (strip_prefix "com/" s4) user_project_path))))
  ["www."; ""]).

Record github_info := {
  gh_user : string;
  gh_project : string;
  gh_path : string;
  gh_head : jsval
}.

(** The default of [gitHead = 'master'] (for [undefined] only). *)
Definition default_head (gitHead : jsval) : jsval :=
  match gitHead with JUndef => JStr "master" | v => v end.

(** [getGitHubRepoInfo({ repository, gitHead })].  The test
    [result.length < 3] never holds: a match array has four entries. *)
Definition getGitHubRepoInfo (repository gitHead : jsval) : option github_info :=
  match repository with
  | JStr r =>
      if String.eqb r "" then None else
      match github_re r with
      | Some (user, project, path) =>
          Some {| gh_user := user; gh_project := project; gh_path := path;
                  gh_head := default_head gitHead |}
      | None => None
      end
  | _ => None
  end.

(** [/^https?:\/\/(?:www\.)?((?:github|gitlab|bitbucket)).((?:com|org))\/([^/]+)\/([^/]+)(\/.+)?$/]
    with its five captures. *)
Definition repo_url_re (s : string)
  : option (string * string * string * string * string) :=
  first_some (fun scheme =>
  ob (strip_prefix scheme s) (fun s1 =>
  first_some (fun www =>
    ob (strip_prefix www s1) (fun s2 =>
    first_some (fun domain =>
      ob (strip_prefix domain s2) (fun s3 =>
      ob (dot s3) (fun s4 =>
      first_some (fun domainTld =>
        ob (strip_prefix domainTld s4) (fun s5 =>
        ob (strip_prefix "/" s5) (fun s6 =>
        ob (user_project_path s6) (fun '(user, project, path) =>
          Some (domain, domainTld, user, project, path)))))
      ["com"; "org"])))
    ["github"; "gitlab"; "bitbucket"]))
  ["www."; ""]))
  ["https://"; "http://"].

Record repo_info := {
  ri_host : string;
  ri_user : string;
  ri_project : string;
  ri_path : string
}.

(** [getRepositoryInfoFromHttpUrl(repository)] on a string. *)
Definition getRepositoryInfoFromHttpUrl (repository : string) : option repo_info :=
  match repo_url_re repository with
  | Some (domain, domainTld, user, project, path) =>
      Some {| ri_host := domain ++ "." ++ domainTld; ri_user := user;
              ri_project := project; ri_path := path |}
  | None => None
  end.

(** *** getHomePage *)

(** [s.indexOf(sub)]. *)
Definition indexOf (s sub : string) : Z :=
  match String.index 0 sub s with Some n => Z.of_nat n | None => -1 end.

Definition getHomePage (homepage repository : jsval) : jsval :=
  if truthy homepage && is_string homepage
     && (negb (truthy repository) || negb (is_string repository)
         || match homepage, repository with
            | JStr h, JStr r => (indexOf h r <? 0)%Z
            | _, _ => false
            end)
  then homepage else JNull.

(** *** main, types and module types *)

(** [pkg.main]: an array with its elements, or a value that is not an
    array. *)
Inductive main_field :=
| MainArray (xs : list jsval)
| MainValue (v : jsval).

Definition getMains (main : main_field) : list string :=
  match main with
  | MainArray xs =>
      flat_map (fun v => match v with JStr s => [s] | _ => [] end) xs
  | MainValue (JStr s) => [s]
  | MainValue JUndef => ["index.js"]
  | MainValue _ => []
  end.

(** The [ts] field of [getTypes(pkg)]: ['included'],
    [{ possible: true, dtsMain }] or [false]. *)
Inductive ts_types :=
| TsIncluded
| TsPossible (dtsMain : string)
| TsFalse.

(** [main.replace(/js$/, 'd.ts')]. *)
Definition replace_js_end (s : string) : string :=
  if endsWith s "js" then drop_last 2 s ++ "d.ts" else s.

Definition getTypes (types typings : jsval) (main : main_field) : ts_types :=
  if truthy types then TsIncluded
  else if truthy typings then TsIncluded
  else match getMains main with
       | m :: _ => if endsWith m ".js" then TsPossible (replace_js_end m)
                   else TsFalse
       | [] => TsFalse
       end.

(** [getModuleTypes(pkg)] from [pkg.module], [pkg.type] and [pkg.main]. *)
Definition getModuleTypes (module type : jsval) (main : main_field) : list string :=
  let moduleTypes :=
    flat_map (fun m =>
      ((if is_string module || str_eq type "module" || endsWith m ".mjs"
        then ["esm"] else [])
       ++ (if str_eq type "commonjs" || endsWith m ".cjs" then ["cjs"] else []))%list)
      (getMains main) in
  match moduleTypes with
  | [] => ["unknown"]
  | _ => moduleTypes
  end.

End PkgFields.

(** * Properties *)

(** ** Lemmas on storeChange *)

Lemma waits_app (a b : list effect) : waits (a ++ b) = waits a ++ waits b.
Proof. unfold waits. apply flat_map_app. Qed.

Lemma saved_app (a b : list effect) : saved (a ++ b) = saved a ++ saved b.
Proof. unfold saved. apply flat_map_app. Qed.

Lemma attempts_app (a b : list effect) :
  backoff_attempts (a ++ b) = backoff_attempts a ++ backoff_attempts b.
Proof. unfold backoff_attempts. apply flat_map_app. Qed.

Lemma storeChange_fail_then_ok (p m : Z) (ch : change) (n : nat) :
  forall r,
    let res := storeChange p m ch r (fail_then_ok n) in
    snd res = true
    /\ saved (fst res) = repeat (mkRecord (id ch) 0 ch) (S n)
    /\ backoff_attempts (fst res)
       = map (fun k => r + Z.of_nat k + 1) (List.seq 0 n)
    /\ waits (fst res)
       = map (fun k => backoff_delay (r + Z.of_nat k + 1) p m) (List.seq 0 n).
Proof.
  unfold fail_then_ok.
  induction n as [|n IH]; intro r; simpl.
  - repeat split.
  - specialize (IH (r + 1)).
    destruct (storeChange p m ch (r + 1) (repeat (Throw 0) n ++ [Ok]))
      as [effs done] eqn:E.
    simpl in IH |- *. destruct IH as (H1 & H2 & H3 & H4).
    rewrite <- List.seq_shift, !map_map.
    repeat split.
    + exact H1.
    + rewrite H2. reflexivity.
    + rewrite H3. f_equal; [lia|]. apply map_ext. intro k. lia.
    + rewrite H4. f_equal; [f_equal; lia|].
      apply map_ext. intro k. f_equal. lia.
Qed.

Lemma storeChange_no_success (p m : Z) (ch : change) (outs : list outcome) :
  forall r, ~ In Ok outs -> snd (storeChange p m ch r outs) = false.
Proof.
  induction outs as [|o outs IH]; intros r Hin; simpl; [reflexivity|].
  destruct o as [|e].
  - exfalso. apply Hin. left. reflexivity.
  - specialize (IH (r + 1)).
    destruct (storeChange p m ch (r + 1) outs) as [effs done] eqn:E.
    simpl in *. apply IH. intro H. apply Hin. right. exact H.
Qed.

Lemma storeChange_records (p m : Z) (ch : change) (outs : list outcome) :
  forall r, Forall (fun rc => rc = mkRecord (id ch) 0 ch)
              (saved (fst (storeChange p m ch r outs))).
Proof.
  induction outs as [|o outs IH]; intro r; simpl.
  - repeat constructor.
  - destruct o as [|e]; simpl.
    + repeat constructor.
    + specialize (IH (r + 1)).
      destruct (storeChange p m ch (r + 1) outs) as [effs done] eqn:E.
      simpl in *. constructor; [reflexivity|]. exact IH.
Qed.

(** ** Claims on backoff and storeChange *)

Definition ch_example : change := mkChange (Some "left-pad"%string) 42.

(** C1 (counterexample): with exponent 2 and cap 30000ms, a change whose
    first [saveObject] fails and second succeeds passes attempt 1 (not 0)
    to [backoff] and waits 4000ms (not 1000ms) after the first failure. *)
Lemma C1_first_wait_not_1000 :
  let effs := fst (storeChange 2 30000 ch_example 0 (fail_then_ok 1)) in
  backoff_attempts effs = [1] /\ waits effs = [4000]
  /\ hd_error (backoff_attempts effs) <> Some 0
  /\ hd_error (waits effs) <> Some 1000.
Proof. vm_compute. repeat split; discriminate. Qed.

(** C1 (amended): when the queue fails [n] times and then succeeds, the
    retry counter passed to [backoff] is 1 on the first failure and grows
    by 1 per failure, so the waits are [delay(1), delay(2), ..., delay(n)]. *)
Theorem C1_backoff_attempts_from_one (p m : Z) (ch : change) (n : nat) :
  let effs := fst (storeChange p m ch 0 (fail_then_ok n)) in
  backoff_attempts effs = map (fun k => Z.of_nat k + 1) (List.seq 0 n)
  /\ waits effs
     = map (fun k => backoff_delay (Z.of_nat k + 1) p m) (List.seq 0 n).
Proof.
  destruct (storeChange_fail_then_ok p m ch n 0) as (_ & _ & H3 & H4).
  simpl. split.
  - rewrite H3. apply map_ext. intro k. lia.
  - rewrite H4. apply map_ext. intro k. f_equal; lia.
Qed.

Lemma IZR_min (x y : Z) : IZR (Z.min x y) = Rmin (IZR x) (IZR y).
Proof.
  destruct (Z.le_ge_cases x y) as [H|H].
  - rewrite Z.min_l by exact H. rewrite Rmin_left; [reflexivity|apply IZR_le; exact H].
  - rewrite Z.min_r by lia. rewrite Rmin_right; [reflexivity|apply IZR_le; lia].
Qed.

(** The integer model of the retry loop computes the same waits as
    [backoff] for an integer exponent [pow >= 0]. *)
Lemma backoff_delay_real (r p m : Z) :
  0 <= r -> 0 <= p ->
  IZR (backoff_delay r p m) = backoff_bo (IZR r) (IZR p) (IZR m).
Proof.
  intros Hr Hp. unfold backoff_delay, backoff_bo, Math_pow.
  rewrite IZR_min, mult_IZR.
  replace (IZR p) with (INR (Z.to_nat p)) by (rewrite INR_IZR_INZ, Z2Nat.id; auto).
  assert (H0 : (0 <= IZR r)%R) by (apply IZR_le; exact Hr).
  rewrite Rpower_pow by lra.
  replace ((r + 1) ^ p) with ((r + 1) ^ Z.of_nat (Z.to_nat p)) by (rewrite Z2Nat.id; auto).
  rewrite <- pow_IZR, plus_IZR. reflexivity.
Qed.

Lemma Rpower_2 (x : R) : (0 < x)%R -> Rpower x 2 = (x * x)%R.
Proof.
  intro Hx. replace 2%R with (INR 2) by (simpl; lra).
  rewrite Rpower_pow by exact Hx. simpl. ring.
Qed.

(** C2: for every attempt count [a >= 0] and every real exponent [p],
    the wait [bo] of [backoff(a, p, c)] is [min(y * 1000, c)] where [y]
    is the real power [(a + 1)^p] (the positive number whose logarithm
    is [p ln(a + 1)], the iterated product when [p] is a natural number);
    the integer model of the retry loop computes the same value for an
    integer exponent [p >= 0]; for [p = 2], [c = 30000] the attempts 0, 1,
    2 and 9 wait 1000, 4000, 9000 and 30000 ms. *)
Theorem C2_backoff_formula (a p c : R) :
  (0 <= a)%R ->
  (exists y, 0 < y /\ ln y = p * ln (a + 1)
     /\ backoff_bo a p c = Rmin (y * 1000) c
     /\ (forall n : nat, p = INR n -> y = (a + 1) ^ n))%R
  /\ (forall r q m : Z, 0 <= r -> 0 <= q ->
        IZR (backoff_delay r q m) = backoff_bo (IZR r) (IZR q) (IZR m))
  /\ map (fun k => backoff_bo k 2 30000) [0; 1; 2; 9]%R
     = [1000; 4000; 9000; 30000]%R.
Proof.
  intros Ha. split; [|split].
  - exists (Rpower (a + 1) p). unfold Rpower. split; [apply exp_pos|].
    split; [apply ln_exp|]. split; [reflexivity|].
    intros n ->. apply Rpower_pow. lra.
  - exact backoff_delay_real.
  - unfold backoff_bo, Math_pow. simpl map.
    rewrite !Rpower_2 by lra.
    repeat f_equal; unfold Rmin; destruct (Rle_dec _ _); lra.
Qed.

Lemma C2_backoff_formula_witness :
  (0 <= 1)%R
  /\ (exists y, 0 < y /\ ln y = 3 / 2 * ln (1 + 1)
        /\ backoff_bo 1 (3 / 2) 30000 = Rmin (y * 1000) 30000)%R.
Proof.
  split; [lra|].
  destruct (C2_backoff_formula 1 (3 / 2) 30000 ltac:(lra)) as [(y & H1 & H2 & H3 & _) _].
  exists y. auto.
Defined.

(** C3: every record [storeChange] passes to [saveObject] is
    [{ objectID: change.id, retries: 0, change }], whatever the number of
    failed attempts before it. *)
Theorem C3_records_retries_zero (p m : Z) (ch : change) (r : Z)
    (outs : list outcome) :
  Forall (fun rc => rc = mkRecord (id ch) 0 ch)
    (saved (fst (storeChange p m ch r outs))).
Proof. apply storeChange_records. Qed.

(** C6: when the queue fails [n] times and then succeeds, [storeChange]
    makes exactly [n + 1] [saveObject] calls and resolves; with failures
    only, it never resolves. *)
Theorem C6_no_retry_ceiling (p m : Z) (ch : change) (n : nat) :
  (let res := storeChange p m ch 0 (fail_then_ok n) in
   snd res = true /\ List.length (saved (fst res)) = S n)
  /\ (forall outs, ~ In Ok outs -> snd (storeChange p m ch 0 outs) = false).
Proof.
  split.
  - destruct (storeChange_fail_then_ok p m ch n 0) as (H1 & H2 & _).
    simpl. split; [exact H1|]. rewrite H2. apply repeat_length.
  - intros outs H. apply storeChange_no_success. exact H.
Qed.

(** ** The consumer: sequential forwarding and the checkpoint *)

Section Consumer.

Variables p m : Z.

Definition consumer_inv (s : mstate) : Prop :=
  (List.length (forwards s) <= 1)%nat /\ (forwards s <> [] -> paused s = true).

Lemma length_middle {A} (l1 l2 : list A) (x : A) :
  (List.length (l1 ++ x :: l2) <= 1)%nat -> l1 = [] /\ l2 = [].
Proof.
  rewrite length_app. simpl. intro H.
  destruct l1; destruct l2; simpl in H; split; auto; lia.
Qed.

Lemma length_middle_replace {A} (l1 l2 : list A) (x y : A) :
  List.length (l1 ++ y :: l2) = List.length (l1 ++ x :: l2).
Proof. rewrite !length_app. reflexivity. Qed.

Lemma consumer_inv_step (s s' : mstate) :
  consumer_inv s -> step p m s s' -> consumer_inv s'.
Proof.
  intros [Hlen Hpause] Hstep.
  inversion Hstep as [s0 ch Hp | s0 l1 l2 ch r Hf | s0 l1 l2 ch r e Hf
                     | s0 l1 l2 ch r Hf | s0 l1 l2 ch r Hf]; subst; unfold consumer_inv.
  - unfold deliver. destruct (id_falsy (id ch)).
    + split; assumption.
    + assert (forwards s = []) as E.
      { destruct (forwards s) eqn:F; [reflexivity|].
        rewrite Hpause in Hp; [discriminate | discriminate]. }
      simpl. rewrite E. simpl. split; [lia | reflexivity].
  - simpl. rewrite length_middle_replace with (x := mkFwd ch r AwaitSave), <- Hf.
    split; [exact Hlen|]. intros _. apply Hpause. rewrite Hf.
    destruct l1; discriminate.
  - simpl. rewrite length_middle_replace with (x := mkFwd ch r AwaitSave), <- Hf.
    split; [exact Hlen|]. intros _. apply Hpause. rewrite Hf.
    destruct l1; discriminate.
  - simpl. rewrite length_middle_replace with (x := mkFwd ch r AwaitBackoff), <- Hf.
    split; [exact Hlen|]. intros _. apply Hpause. rewrite Hf.
    destruct l1; discriminate.
  - simpl. rewrite Hf in Hlen. apply length_middle in Hlen as [-> ->].
    simpl. split; [lia|]. intro H. exfalso. apply H. reflexivity.
Qed.

Lemma consumer_inv_reachable (s : mstate) :
  reachable p m s -> consumer_inv s.
Proof.
  induction 1 as [|s s' _ IH Hstep].
  - split; simpl; [lia|]. intro H. exfalso. apply H. reflexivity.
  - eapply consumer_inv_step; eassumption.
Qed.

Lemma handler_sync_nonfalsy (ch : change) :
  id_falsy (id ch) = false ->
  handler_sync p m ch
  = [Pause; SaveObject (mkRecord (id ch) 0 ch); FetchQueueLength;
     CheckpointSave (seq ch)].
Proof. intro H. unfold handler_sync. rewrite H. reflexivity. Qed.

End Consumer.

(** C4: the handler pauses the feed before its first [saveObject] call;
    in every reachable state at most one change is being forwarded and
    the feed is paused while one is; the feed is resumed only by the
    [.then] of a resolved [storeChange], which ends that forward. *)
Theorem C4_sequential_forwarding (p m : Z) :
  (forall ch, id_falsy (id ch) = false ->
     exists rest,
       handler_sync p m ch = Pause :: SaveObject (mkRecord (id ch) 0 ch) :: rest)
  /\ (forall s, reachable p m s ->
        (List.length (forwards s) <= 1)%nat
        /\ (forwards s <> [] -> paused s = true))
  /\ (forall s s', reachable p m s -> step p m s s' ->
        paused s = true -> paused s' = false ->
        exists ch r, forwards s = [mkFwd ch r AwaitResume]
                     /\ forwards s' = [] /\ trace s' = trace s ++ [Resume]).
Proof.
  split; [|split].
  - intros ch H. rewrite handler_sync_nonfalsy by exact H.
    eexists. reflexivity.
  - intros s H. apply consumer_inv_reachable with (p := p) (m := m). exact H.
  - intros s s' Hr Hstep Hp Hp'.
    destruct (consumer_inv_reachable p m s Hr) as [Hlen _].
    inversion Hstep as [s0 ch Hq | s0 l1 l2 ch r Hf | s0 l1 l2 ch r e Hf
                       | s0 l1 l2 ch r Hf | s0 l1 l2 ch r Hf]; subst.
    + rewrite Hp in Hq. discriminate.
    + simpl in Hp'. rewrite Hp in Hp'. discriminate.
    + simpl in Hp'. rewrite Hp in Hp'. discriminate.
    + simpl in Hp'. rewrite Hp in Hp'. discriminate.
    + rewrite Hf in Hlen. apply length_middle in Hlen as [-> ->].
      exists ch, r. simpl. rewrite Hf. repeat split.
Qed.

Lemma C4_sequential_forwarding_witness :
  reachable 2 30000 (deliver 2 30000 ch_example init_state)
  /\ (List.length (forwards (deliver 2 30000 ch_example init_state)) <= 1)%nat.
Proof.
  assert (H : reachable 2 30000 (deliver 2 30000 ch_example init_state)).
  { apply reach_step with (s := init_state); [apply reach_init|].
    apply step_deliver. reflexivity. }
  split; [exact H|].
  destruct (C4_sequential_forwarding 2 30000) as (_ & Hinv & _).
  apply (Hinv _ H).
Defined.

(** C5: when a change with an id is delivered, the handler's own run
    calls [stateManager.save({ seq })] exactly once, while its
    [saveObject] call is still unsettled: the checkpoint save does not
    wait for the forward. *)
Theorem C5_checkpoint_not_after_forward (p m : Z) (s : mstate) (ch : change) :
  reachable p m s -> paused s = false -> id_falsy (id ch) = false ->
  exists s' effs,
    step p m s s'
    /\ forwards s' = [mkFwd ch 0 AwaitSave]
    /\ trace s' = trace s ++ effs
    /\ effs = handler_sync p m ch
    /\ count_checkpoint (seq ch) effs = 1%nat.
Proof.
  intros Hr Hp Hid.
  destruct (consumer_inv_reachable p m s Hr) as [_ Hpause].
  assert (E : forwards s = []).
  { destruct (forwards s) eqn:F; [reflexivity|].
    rewrite Hpause in Hp; discriminate. }
  exists (deliver p m ch s), (handler_sync p m ch).
  split; [apply step_deliver; exact Hp|].
  unfold deliver. rewrite Hid. simpl. rewrite E.
  split; [reflexivity|]. split; [reflexivity|]. split; [reflexivity|].
  rewrite handler_sync_nonfalsy by exact Hid.
  unfold count_checkpoint. simpl. rewrite Z.eqb_refl. reflexivity.
Qed.

Lemma C5_checkpoint_not_after_forward_witness :
  reachable 2 30000 init_state /\ paused init_state = false
  /\ id_falsy (id ch_example) = false
  /\ exists s' effs,
       step 2 30000 init_state s'
       /\ forwards s' = [mkFwd ch_example 0 AwaitSave]
       /\ trace s' = trace init_state ++ effs
       /\ effs = handler_sync 2 30000 ch_example
       /\ count_checkpoint (seq ch_example) effs = 1%nat.
Proof.
  split; [apply reach_init|]. split; [reflexivity|]. split; [reflexivity|].
  apply (C5_checkpoint_not_after_forward 2 30000 init_state ch_example);
    [apply reach_init | reflexivity | reflexivity].
Defined.

(** C9: a change whose id is absent or empty is skipped: the handler
    emits nothing (no pause, no [saveObject], no progress, no checkpoint)
    and the consumer state is unchanged. *)
Theorem C9_skip_without_id (p m : Z) (s : mstate) (ch : change) :
  id_falsy (id ch) = true ->
  handler_sync p m ch = [] /\ deliver p m ch s = s.
Proof.
  intro H. unfold handler_sync, deliver. rewrite H. split; reflexivity.
Qed.

Lemma C9_skip_without_id_witness :
  id_falsy (id (mkChange (Some ""%string) 7)) = true
  /\ handler_sync 2 30000 (mkChange (Some ""%string) 7) = []
  /\ deliver 2 30000 (mkChange (Some ""%string) 7) init_state = init_state.
Proof.
  split; [reflexivity|].
  apply (C9_skip_without_id 2 30000 init_state (mkChange (Some ""%string) 7)).
  reflexivity.
Defined.

(** ** Failed forwards are logged, not reported *)

(** The [report] calls in a list of effects. *)
Definition reports (effs : list effect) : list nat :=
  flat_map (fun e => match e with Report x => [x] | _ => [] end) effs.

(** The errors logged by the [catch] of [storeChange]. *)
Definition queue_errors_logged (effs : list effect) : list nat :=
  flat_map (fun e => match e with LogErrQueue x => [x] | _ => [] end) effs.

(** The errors of the failed [saveObject] calls, up to the first success. *)
Fixpoint failed_errors (outs : list outcome) : list nat :=
  match outs with
  | [] => []
  | Ok :: _ => []
  | Throw e :: rest => e :: failed_errors rest
  end.

Lemma reports_app (a b : list effect) : reports (a ++ b) = reports a ++ reports b.
Proof. unfold reports. apply flat_map_app. Qed.

Lemma queue_errors_app (a b : list effect) :
  queue_errors_logged (a ++ b) = queue_errors_logged a ++ queue_errors_logged b.
Proof. unfold queue_errors_logged. apply flat_map_app. Qed.

(** C7 (counterexample): a change whose first [saveObject] fails with
    error 0: the run of [storeChange] contains no [report] call, only the
    log line carrying the error. *)
Lemma C7_failure_not_reported :
  let effs := fst (storeChange 2 30000 ch_example 0 (fail_then_ok 1)) in
  reports effs = [] /\ queue_errors_logged effs = [0%nat]
  /\ ~ (List.length (reports effs) >= 1)%nat.
Proof. vm_compute. split; [reflexivity|]. split; [reflexivity|]. lia. Qed.

(** C7 (amended): each failed [saveObject] call is logged once with its
    error only ([LogErrQueue err] carries no field of the change), and
    [storeChange] never calls [report]. *)
Theorem C7_failures_logged_only (p m : Z) (ch : change) (r : Z)
    (outs : list outcome) :
  let effs := fst (storeChange p m ch r outs) in
  queue_errors_logged effs = failed_errors outs /\ reports effs = [].
Proof.
  revert r. induction outs as [|o outs IH]; intro r; simpl.
  - split; reflexivity.
  - destruct o as [|e]; simpl; [split; reflexivity|].
    specialize (IH (r + 1)).
    destruct (storeChange p m ch (r + 1) outs) as [effs done] eqn:E.
    simpl in *. destruct IH as [H1 H2].
    unfold queue_errors_logged, reports in *. simpl.
    rewrite H1, H2. split; reflexivity.
Qed.

(** ** Watch.stop *)

Lemma run_guarded_throw (pre post : list (effect * outcome)) (c : effect)
    (e : nat) :
  Forall (fun x => snd x = Ok) pre ->
  run_guarded (pre ++ (c, Throw e) :: post) = (map fst pre ++ [c], Some e).
Proof.
  induction 1 as [|[c0 o0] pre Ho _ IH]; simpl in *; [reflexivity|].
  subst o0. rewrite IH. reflexivity.
Qed.

Lemma nodup_disjoint {A} (l1 l2 : list A) (y : A) :
  NoDup (l1 ++ l2) -> In y l1 -> ~ In y l2.
Proof.
  induction l1 as [|a l1 IH]; simpl; intros Hnd Hin; [destruct Hin|].
  inversion Hnd as [|? ? Hnot Hnd']; subst.
  destruct Hin as [->|Hin].
  - intro H. apply Hnot. apply in_or_app. right. exact H.
  - apply IH; assumption.
Qed.

Definition is_stop_call (e : effect) : Prop :=
  match e with StopReader | StopIndexer _ => True | _ => False end.

Lemma guarded_calls_shape (w : watch_cfg) :
  NoDup (map fst (guarded_calls w))
  /\ Forall is_stop_call (map fst (guarded_calls w)).
Proof.
  destruct w as [r a b c hr].
  destruct a as [[oa|]|], b as [[ob|]|], c as [[oc|]|];
    unfold guarded_calls; simpl;
    (split; [repeat constructor; simpl; intuition discriminate
            | repeat constructor]).
Qed.

Lemma stop_body (w : watch_cfg) :
  exists body,
    stop w = body ++ remove_listeners w ++ [LogInfo "Stopped Watch gracefully"].
Proof.
  unfold stop. destruct (run_guarded (guarded_calls w)) as [body err].
  exists (LogInfo "Stopping Watch..."
            :: body ++ match err with Some x => [Report x] | None => [] end).
  simpl. rewrite <- app_assoc. reflexivity.
Qed.

(** C8: [stop()] first stops the feed transport; the transport stop and
    the indexers' [stop] calls run in one [try]: the first one that throws
    is reported and the calls after it are not made; removing the feed
    reader's listeners comes afterwards whatever the outcomes. *)
Theorem C8_stop_single_guard (w : watch_cfg) :
  (exists rest, stop w = LogInfo "Stopping Watch..." :: StopReader :: rest)
  /\ (forall pre c e post,
        guarded_calls w = pre ++ (c, Throw e) :: post ->
        Forall (fun x => snd x = Ok) pre ->
        stop w = LogInfo "Stopping Watch..."
                   :: map fst pre ++ [c; Report e] ++ remove_listeners w
                   ++ [LogInfo "Stopped Watch gracefully"]
        /\ (forall c', In c' (map fst post) -> ~ In c' (stop w)))
  /\ (exists body,
        stop w = body ++ remove_listeners w
                 ++ [LogInfo "Stopped Watch gracefully"]).
Proof.
  split; [|split].
  - unfold stop, guarded_calls. destruct (reader_stop w) as [|x]; simpl.
    + destruct (run_guarded _) as [body err]. eexists. reflexivity.
    + eexists. reflexivity.
  - intros pre c e post Hg Hok.
    assert (Hstop : stop w = LogInfo "Stopping Watch..."
                      :: map fst pre ++ [c; Report e] ++ remove_listeners w
                      ++ [LogInfo "Stopped Watch gracefully"]).
    { unfold stop. rewrite Hg, (run_guarded_throw pre post c e Hok).
      simpl. rewrite <- app_assoc. reflexivity. }
    split; [exact Hstop|].
    intros c' Hin Hin'.
    destruct (guarded_calls_shape w) as [Hnd Hall].
    rewrite Hg, map_app in Hnd, Hall. simpl in Hnd, Hall.
    pose proof (NoDup_remove_2 _ _ _ Hnd) as Hc.
    apply Forall_app in Hall as [_ Hall]. inversion Hall as [|? ? _ Hpost]; subst.
    rewrite Forall_forall in Hpost. specialize (Hpost c' Hin).
    rewrite Hstop in Hin'. simpl in Hin'.
    destruct Hin' as [Heq|Hin']; [subst c'; exact Hpost|].
    apply in_app_or in Hin' as [Hpre|Hrest].
    + apply (nodup_disjoint _ _ c' Hnd Hpre). right. exact Hin.
    + simpl in Hrest. destruct Hrest as [Heq|[Heq|Hrest]].
      * subst c'. apply Hc. apply in_or_app. right. exact Hin.
      * subst c'. exact Hpost.
      * apply in_app_or in Hrest as [Hr|Hr].
        -- unfold remove_listeners in Hr. destruct (has_changesReader w);
             simpl in Hr; [destruct Hr as [Hr|[]]; subst c'; exact Hpost | exact Hr].
        -- destruct Hr as [Hr|[]]. subst c'. exact Hpost.
  - apply stop_body.
Qed.

Definition watch_example : watch_cfg :=
  mkWatch Ok (Some (Some (Throw 5))) (Some (Some Ok)) (Some (Some Ok)) true.

Lemma C8_stop_single_guard_witness :
  guarded_calls watch_example
  = [(StopReader, Ok)] ++ (StopIndexer OneTime, Throw 5)
      :: [(StopIndexer Periodic, Ok); (StopIndexer MainWatch, Ok)]
  /\ stop watch_example
     = LogInfo "Stopping Watch..."
         :: map fst [(StopReader, Ok)] ++ [StopIndexer OneTime; Report 5]
         ++ remove_listeners watch_example
         ++ [LogInfo "Stopped Watch gracefully"].
Proof.
  assert (Hg : guarded_calls watch_example
               = [(StopReader, Ok)] ++ (StopIndexer OneTime, Throw 5)
                   :: [(StopIndexer Periodic, Ok); (StopIndexer MainWatch, Ok)])
    by reflexivity.
  split; [exact Hg|].
  destruct (C8_stop_single_guard watch_example) as (_ & H & _).
  apply (H _ _ _ _ Hg). repeat constructor.
Defined.

(** ** formatPkg: string leaves reachable through two keys *)

Module FormatPkgProps.
Import Js FormatPkg.
Local Open Scope string_scope.

(** A package whose last publisher is "A & B" and which has no
    repository: [getOwner] returns the [lastPublisher] object itself, so
    the document holds it under both [owner] and [lastPublisher]. *)
Definition pkg_shared_owner : pkg_input :=
  mkPkg "a" (Some "1.0.0") (Some "<b>x</b>") None None None None
    (Some [("name", "A & B"); ("email", "ab@example.com")])
    None None None ["1.0.0"] (Some "<h1>a</h1>").

(** C10 (failing input): on [pkg_shared_owner] the leaf [owner.name]
    of the returned document is escaped twice (the walk meets the shared
    object under [owner] and again under [lastPublisher]), while other
    string leaves are escaped once and [readme] is kept verbatim. *)
Theorem C10_shared_object_escaped_twice (gravatarUrl : string -> string)
    (date_parse : string -> jsval) (now_iso : string) :
  match formatPkg_truncated gravatarUrl date_parse now_iso pkg_shared_owner,
        formatPkg gravatarUrl date_parse now_iso pkg_shared_owner with
  | Some (r0, h0), Some (r1, h1) =>
      get_path h0 r0 ["owner"; "name"] = JStr "A & B"
      /\ get_path h1 r1 ["owner"; "name"] = JStr (escape (escape "A & B"))
      /\ get_path h1 r1 ["lastPublisher"; "name"] = JStr "A &amp;amp; B"
      /\ get_path h1 r1 ["owner"; "name"] <> JStr (escape "A & B")
      /\ get_path h1 r1 ["description"] = JStr (escape "<b>x</b>")
      /\ get_path h1 r1 ["readme"] = JStr "<h1>a</h1>"
  | _, _ => False
  end.
Proof.
  vm_compute. repeat split. discriminate.
Qed.

End FormatPkgProps.

(** * Further properties of the consumer *)

Module ConsumerProps.

(** ** The waits of the retry loop *)

Lemma storeChange_waits (p m : Z) (ch : change) (outs : list outcome) :
  forall r,
    waits (fst (storeChange p m ch r outs))
    = map (fun k => backoff_delay (r + Z.of_nat k + 1) p m)
        (List.seq 0 (List.length (failed_errors outs))).
Proof.
  induction outs as [|o outs IH]; intro r; simpl; [reflexivity|].
  destruct o as [|e]; simpl; [reflexivity|].
  specialize (IH (r + 1)).
  destruct (storeChange p m ch (r + 1) outs) as [effs done] eqn:E.
  simpl in *. rewrite IH, <- List.seq_shift, map_map.
  unfold waits in *. simpl. f_equal; [f_equal; lia|].
  apply map_ext. intro k. f_equal. lia.
Qed.

Lemma backoff_delay_mono (p m a b : Z) :
  0 <= a <= b -> backoff_delay a p m <= backoff_delay b p m.
Proof.
  intro H. unfold backoff_delay. apply Z.min_le_compat_r.
  apply Z.mul_le_mono_nonneg_r; [lia|]. apply Z.pow_le_mono_l. lia.
Qed.

Lemma sorted_map_seq (f : nat -> Z) (n : nat) :
  (forall i j, (i <= j)%nat -> f i <= f j) ->
  forall a, Sorted Z.le (map f (List.seq a n)).
Proof.
  intro Hf. induction n as [|n IH]; intro a; simpl; [constructor|].
  constructor; [apply IH|].
  destruct n; simpl; constructor. apply Hf. lia.
Qed.

(** X1: the retry loop never waits longer than [config.retryBackoffMax]
    between two attempts. *)
Theorem waits_bounded_by_max (p m : Z) (ch : change) (r : Z)
    (outs : list outcome) :
  Forall (fun w => w <= m) (waits (fst (storeChange p m ch r outs))).
Proof.
  rewrite storeChange_waits. apply Forall_forall. intros w Hw.
  apply in_map_iff in Hw as (k & <- & _). apply Z.le_min_r.
Qed.

Lemma sorted_map_seq_R (f : nat -> R) (n : nat) :
  (forall i j, (i <= j)%nat -> (f i <= f j)%R) ->
  forall a, Sorted Rle (map f (List.seq a n)).
Proof.
  intro Hf. induction n as [|n IH]; intro a; simpl; [constructor|].
  constructor; [apply IH|].
  destruct n; simpl; constructor. apply Hf. lia.
Qed.

Lemma backoff_bo_mono (q mr x y : R) :
  (0 <= q)%R -> (0 <= x <= y)%R -> (backoff_bo x q mr <= backoff_bo y q mr)%R.
Proof.
  intros Hq Hxy. unfold backoff_bo, Math_pow.
  assert (H : (Rpower (x + 1) q <= Rpower (y + 1) q)%R)
    by (apply Rle_Rpower_l; lra).
  unfold Rmin. destruct (Rle_dec _ mr), (Rle_dec _ mr); lra.
Qed.

(** X2: starting from a non-negative retry counter, with a non-negative
    exponent, the successive waits of the retry loop never decrease: in
    the integer model of the loop, and for any real exponent [q >= 0] for
    the values [bo] that [backoff] computes for the counters [r + 1],
    [r + 2], ... the loop passes it, one per failed save. *)
Theorem waits_nondecreasing (p m : Z) (ch : change) (r : Z)
    (outs : list outcome) :
  0 <= r -> 0 <= p ->
  Sorted Z.le (waits (fst (storeChange p m ch r outs)))
  /\ (forall q mr : R, (0 <= q)%R ->
        Sorted Rle (map (fun k => backoff_bo (IZR r + INR k + 1) q mr)
                      (List.seq 0 (List.length (failed_errors outs))))).
Proof.
  intros Hr Hp. split.
  - rewrite storeChange_waits. apply sorted_map_seq.
    intros i j Hij. apply backoff_delay_mono. lia.
  - intros q mr Hq. apply sorted_map_seq_R. intros i j Hij.
    apply backoff_bo_mono; [exact Hq|].
    assert (H0 : (0 <= IZR r)%R) by (apply IZR_le; exact Hr).
    apply le_INR in Hij. pose proof (pos_INR i). lra.
Qed.

Lemma waits_nondecreasing_witness :
  (0 <= 0 /\ 0 <= 2)
  /\ Sorted Z.le (waits (fst (storeChange 2 30000 ch_example 0 (fail_then_ok 12)))).
Proof.
  split; [lia|]. apply (waits_nondecreasing 2 30000 ch_example 0 (fail_then_ok 12)); lia.
Defined.

(** ** Pause and resume balance *)

Definition count_pause (effs : list effect) : nat :=
  List.length (filter (fun e => match e with Pause => true | _ => false end) effs).

Definition count_resume (effs : list effect) : nat :=
  List.length (filter (fun e => match e with Resume => true | _ => false end) effs).

Lemma count_pause_app (a b : list effect) :
  count_pause (a ++ b) = (count_pause a + count_pause b)%nat.
Proof. unfold count_pause. rewrite filter_app, length_app. reflexivity. Qed.

Lemma count_resume_app (a b : list effect) :
  count_resume (a ++ b) = (count_resume a + count_resume b)%nat.
Proof. unfold count_resume. rewrite filter_app, length_app. reflexivity. Qed.

(** X3: in every run of the consumer, the number of [pause()] calls
    equals the number of [resume()] calls plus the number of forwards in
    flight: every pause is undone by exactly one resume once its forward
    is over. *)
Theorem pause_resume_balance (p m : Z) (s : mstate) :
  reachable p m s ->
  count_pause (trace s) = (count_resume (trace s) + List.length (forwards s))%nat.
Proof.
  induction 1 as [|s s' _ IH Hstep]; [reflexivity|].
  inversion Hstep as [s0 ch Hq | s0 l1 l2 ch r Hf | s0 l1 l2 ch r e Hf
                     | s0 l1 l2 ch r Hf | s0 l1 l2 ch r Hf]; subst; simpl.
  - unfold deliver. destruct (id_falsy (id ch)) eqn:Hid; [exact IH|].
    simpl. rewrite count_pause_app, count_resume_app, length_app, IH.
    rewrite handler_sync_nonfalsy by exact Hid. unfold count_pause, count_resume. simpl. lia.
  - rewrite Hf in IH. rewrite !length_app in *. simpl in *. exact IH.
  - rewrite count_pause_app, count_resume_app. rewrite Hf in IH.
    rewrite !length_app in *. simpl in *.
    unfold count_pause, count_resume, backoff in *. simpl in *. lia.
  - rewrite count_pause_app, count_resume_app. rewrite Hf in IH.
    rewrite !length_app in *. simpl in *.
    unfold count_pause, count_resume in *. simpl in *. lia.
  - rewrite count_pause_app, count_resume_app. rewrite Hf in IH.
    rewrite !length_app in *. simpl in *.
    unfold count_pause, count_resume in *. simpl in *. lia.
Qed.

Lemma pause_resume_balance_witness :
  reachable 2 30000 (deliver 2 30000 ch_example init_state)
  /\ count_pause (trace (deliver 2 30000 ch_example init_state))
     = (count_resume (trace (deliver 2 30000 ch_example init_state))
        + List.length (forwards (deliver 2 30000 ch_example init_state)))%nat.
Proof.
  assert (H : reachable 2 30000 (deliver 2 30000 ch_example init_state)).
  { apply reach_step with (s := init_state); [apply reach_init|].
    apply step_deliver. reflexivity. }
  split; [exact H|]. apply (pause_resume_balance 2 30000 _ H).
Defined.

(** ** The step model replays storeChange *)

Inductive steps (p m : Z) : mstate -> mstate -> Prop :=
| steps_refl : forall s, steps p m s s
| steps_cons : forall s s' s'', step p m s s' -> steps p m s' s'' -> steps p m s s''.

Lemma steps_trans (p m : Z) (s1 s2 s3 : mstate) :
  steps p m s1 s2 -> steps p m s2 s3 -> steps p m s1 s3.
Proof.
  induction 1 as [|s s' s'' H _ IH]; intro H23; [exact H23|].
  eapply steps_cons; [exact H|]. apply IH. exact H23.
Qed.

Lemma steps_reachable (p m : Z) (s s' : mstate) :
  steps p m s s' -> reachable p m s -> reachable p m s'.
Proof.
  induction 1 as [|s s' s'' H _ IH]; intro Hr; [exact Hr|].
  apply IH. eapply reach_step; eassumption.
Qed.

Lemma storeChange_head (p m : Z) (ch : change) (r : Z) (outs : list outcome) :
  fst (storeChange p m ch r outs)
  = SaveObject (mkRecord (id ch) 0 ch) :: tl (fst (storeChange p m ch r outs)).
Proof.
  destruct outs as [|[|e] outs]; simpl; try reflexivity.
  destruct (storeChange p m ch (r + 1) outs). reflexivity.
Qed.

Lemma run_forward (p m : Z) (ch : change) (outs : list outcome) :
  forall r s,
    forwards s = [mkFwd ch r AwaitSave] ->
    snd (storeChange p m ch r outs) = true ->
    exists s' r',
      steps p m s s'
      /\ forwards s' = [mkFwd ch r' AwaitResume]
      /\ paused s' = paused s
      /\ trace s' = trace s ++ tl (fst (storeChange p m ch r outs)).
Proof.
  induction outs as [|o outs IH]; intros r s Hf Hdone; [discriminate|].
  destruct o as [|e].
  - exists (mkState (paused s) [mkFwd ch r AwaitResume] (trace s)), r.
    split; [|split; [reflexivity|split; [reflexivity|]]].
    + eapply steps_cons; [|apply steps_refl].
      apply (step_save_ok p m s [] []). exact Hf.
    + simpl. rewrite app_nil_r. reflexivity.
  - simpl in Hdone |- *.
    pose proof (storeChange_head p m ch (r + 1) outs) as Hh.
    destruct (storeChange p m ch (r + 1) outs) as [effs done] eqn:E.
    simpl in Hdone, Hh.
    set (s1 := mkState (paused s) [mkFwd ch (r + 1) AwaitBackoff]
                 (trace s ++ LogErrQueue e :: backoff (r + 1) p m)).
    set (s2 := mkState (paused s) [mkFwd ch (r + 1) AwaitSave]
                 (trace s1 ++ [SaveObject (mkRecord (id ch) 0 ch)])).
    assert (H12 : steps p m s s2).
    { eapply steps_cons; [apply (step_save_err p m s [] [] ch r e); exact Hf|].
      eapply steps_cons; [apply (step_backoff_done p m s1 [] [] ch (r + 1));
                          reflexivity|].
      apply steps_refl. }
    destruct (IH (r + 1) s2) as (s' & r' & Hs & Hf' & Hp & Ht);
      [reflexivity| rewrite E; exact Hdone|].
    exists s', r'. split; [eapply steps_trans; eassumption|].
    split; [exact Hf'|]. split; [exact Hp|].
    rewrite Ht, E. simpl. subst s1 s2. simpl. rewrite Hh.
    unfold backoff. simpl. rewrite <- !app_assoc. reflexivity.
Qed.

(** X4: the step model of the consumer agrees with [storeChange]: from a
    reachable, unpaused state, a change with an id whose [saveObject]
    outcomes make [storeChange] resolve is processed by pausing, the
    handler's synchronous calls, the rest of [storeChange]'s calls, and a
    final resume, after which nothing is in flight. *)
Theorem consumer_replays_storeChange (p m : Z) (s : mstate) (ch : change)
    (outs : list outcome) :
  reachable p m s -> paused s = false -> id_falsy (id ch) = false ->
  snd (storeChange p m ch 0 outs) = true ->
  exists s',
    steps p m s s' /\ reachable p m s'
    /\ forwards s' = [] /\ paused s' = false
    /\ trace s' = trace s ++ [Pause; SaveObject (mkRecord (id ch) 0 ch);
                             FetchQueueLength; CheckpointSave (seq ch)]
                  ++ tl (fst (storeChange p m ch 0 outs)) ++ [Resume].
Proof.
  intros Hr Hp Hid Hdone.
  destruct (consumer_inv_reachable p m s Hr) as [_ Hpause].
  assert (E : forwards s = []).
  { destruct (forwards s) eqn:F; [reflexivity|].
    rewrite Hpause in Hp; discriminate. }
  set (s1 := deliver p m ch s).
  assert (Hf1 : forwards s1 = [mkFwd ch 0 AwaitSave]).
  { subst s1. unfold deliver. rewrite Hid. simpl. rewrite E. reflexivity. }
  destruct (run_forward p m ch outs 0 s1 Hf1 Hdone) as (s2 & r' & Hs & Hf2 & Hp2 & Ht2).
  set (s3 := mkState false [] (trace s2 ++ [Resume])).
  assert (Hs3 : steps p m s s3).
  { eapply steps_cons; [apply step_deliver; exact Hp|].
    eapply steps_trans; [exact Hs|].
    eapply steps_cons; [|apply steps_refl].
    apply (step_resume p m s2 [] [] ch r'). exact Hf2. }
  exists s3. split; [exact Hs3|]. split; [eapply steps_reachable; eassumption|].
  split; [reflexivity|]. split; [reflexivity|].
  subst s3. simpl. rewrite Ht2. subst s1. unfold deliver. rewrite Hid. simpl.
  rewrite handler_sync_nonfalsy by exact Hid. rewrite <- !app_assoc. reflexivity.
Qed.

Lemma consumer_replays_storeChange_witness :
  reachable 2 30000 init_state /\ paused init_state = false
  /\ id_falsy (id ch_example) = false
  /\ snd (storeChange 2 30000 ch_example 0 (fail_then_ok 2)) = true
  /\ exists s',
       steps 2 30000 init_state s' /\ reachable 2 30000 s'
       /\ forwards s' = [] /\ paused s' = false
       /\ trace s' = trace init_state
                     ++ [Pause; SaveObject (mkRecord (id ch_example) 0 ch_example);
                         FetchQueueLength; CheckpointSave (seq ch_example)]
                     ++ tl (fst (storeChange 2 30000 ch_example 0 (fail_then_ok 2)))
                     ++ [Resume].
Proof.
  split; [apply reach_init|]. split; [reflexivity|]. split; [reflexivity|].
  split; [reflexivity|].
  apply (consumer_replays_storeChange 2 30000 init_state ch_example (fail_then_ok 2));
    [apply reach_init | reflexivity | reflexivity | reflexivity].
Defined.

(** ** Watch.stop without failures *)

Lemma run_guarded_all_ok (calls : list (effect * outcome)) :
  Forall (fun x => snd x = Ok) calls -> run_guarded calls = (map fst calls, None).
Proof.
  induction 1 as [|[c o] calls Ho _ IH]; simpl in *; [reflexivity|].
  subst o. rewrite IH. reflexivity.
Qed.

Lemma reports_stop_calls (l : list effect) :
  Forall is_stop_call l -> reports l = [].
Proof.
  induction 1 as [|e es He _ IH]; [reflexivity|].
  destruct e; try contradiction; exact IH.
Qed.

(** X5: when the feed reader's [stop()] and every existing indexer's
    [stop()] succeed, [Watch.stop] makes all these calls in order, reports
    nothing, and then removes the listeners. *)
Theorem stop_all_ok (w : watch_cfg) :
  Forall (fun x => snd x = Ok) (guarded_calls w) ->
  stop w = LogInfo "Stopping Watch..." :: map fst (guarded_calls w)
             ++ remove_listeners w ++ [LogInfo "Stopped Watch gracefully"]
  /\ reports (stop w) = [].
Proof.
  intro H. assert (Hs : stop w = LogInfo "Stopping Watch..." :: map fst (guarded_calls w)
             ++ remove_listeners w ++ [LogInfo "Stopped Watch gracefully"]).
  { unfold stop. rewrite (run_guarded_all_ok _ H). reflexivity. }
  split; [exact Hs|]. rewrite Hs.
  pose proof (guarded_calls_shape w) as [_ Hall].
  change (reports ([LogInfo "Stopping Watch..."] ++ map fst (guarded_calls w)
                   ++ remove_listeners w ++ [LogInfo "Stopped Watch gracefully"]) = []).
  rewrite !reports_app, (reports_stop_calls _ Hall).
  unfold remove_listeners. destruct (has_changesReader w); reflexivity.
Qed.

Definition watch_all_ok : watch_cfg :=
  mkWatch Ok (Some (Some Ok)) (Some None) (Some (Some Ok)) true.

Lemma stop_all_ok_witness :
  Forall (fun x => snd x = Ok) (guarded_calls watch_all_ok)
  /\ reports (stop watch_all_ok) = [].
Proof.
  assert (H : Forall (fun x => snd x = Ok) (guarded_calls watch_all_ok))
    by (repeat constructor).
  split; [exact H|]. apply (stop_all_ok watch_all_ok H).
Defined.

End ConsumerProps.

(** * Further properties of formatPkg *)

Module FormatPkgMore.
Import Js FormatPkg.
Local Open Scope string_scope.

(** ** getAlternativeNames *)

Lemma set_add_all_in (x : string) (xs : list string) :
  forall acc, In x acc \/ In x xs -> In x (set_add_all acc xs).
Proof.
  induction xs as [|y xs IH]; intros acc H; simpl.
  - destruct H as [H|[]]. exact H.
  - destruct (existsb (String.eqb y) acc) eqn:E; apply IH.
    + destruct H as [H|[<-|H]]; auto.
      left. apply existsb_exists in E as (z & Hz & Heq).
      apply String.eqb_eq in Heq. subst. exact Hz.
    + destruct H as [H|[<-|H]]; auto.
      * left. apply in_or_app. left. exact H.
      * left. apply in_or_app. right. left. reflexivity.
Qed.

Lemma set_add_all_nodup (xs : list string) :
  forall acc, NoDup acc -> NoDup (set_add_all acc xs).
Proof.
  induction xs as [|y xs IH]; intros acc H; simpl; [exact H|].
  destruct (existsb (String.eqb y) acc) eqn:E; apply IH; [exact H|].
  apply NoDup_app.
  - exact H.
  - constructor; [intros []|constructor].
  - intros z Hz [Hzy|[]]. subst y.
  assert (existsb (String.eqb z) acc = true).
  { apply existsb_exists. exists z. split; [exact Hz|]. apply String.eqb_refl. }
  congruence.
Qed.

(** X6: [getAlternativeNames(name)] has no duplicates and contains the
    name itself and the name with all of [- / @ _ .] removed. *)
Theorem alternativeNames_spec (name : string) :
  NoDup (getAlternativeNames name)
  /\ In name (getAlternativeNames name)
  /\ In (replace_seps "" false name) (getAlternativeNames name).
Proof.
  unfold getAlternativeNames. split; [|split].
  - apply set_add_all_nodup. constructor.
  - apply set_add_all_in. right. apply in_or_app. right.
    apply in_or_app. right. left. reflexivity.
  - apply set_add_all_in. right. left. reflexivity.
Qed.

(** ** The escaping pass keeps keys and readme values *)

(** The key list of every object of the heap. *)
Definition shape (h : heap) : list (list string) := map (map fst) h.

(** The [readme] field of every object of the heap. *)
Definition readmes (h : heap) : list jsval := map (fun o => obj_get o "readme") h.

Lemma obj_set_keys (o : obj) (k : string) (v : jsval) :
  In k (map fst o) -> map fst (obj_set o k v) = map fst o.
Proof.
  induction o as [|[k' v'] o IH]; simpl; [intros []|].
  intro H. destruct (String.eqb k k') eqn:E; simpl; [reflexivity|].
  f_equal. apply IH. destruct H as [->|H]; [|exact H].
  rewrite String.eqb_refl in E. discriminate.
Qed.

Lemma obj_set_get_same (o : obj) (k : string) :
  In k (map fst o) -> obj_set o k (obj_get o k) = o.
Proof.
  induction o as [|[k' v'] o IH]; simpl; [intros []|].
  intro H. destruct (String.eqb k k') eqn:E.
  - apply String.eqb_eq in E. subst. reflexivity.
  - f_equal. apply IH. destruct H as [->|H]; [|exact H].
    rewrite String.eqb_refl in E. discriminate.
Qed.

Lemma obj_get_set_other (o : obj) (k k2 : string) (v : jsval) :
  k <> k2 -> obj_get (obj_set o k v) k2 = obj_get o k2.
Proof.
  intro Hne. induction o as [|[k' v'] o IH]; simpl.
  - destruct (String.eqb k2 k) eqn:E; [|reflexivity].
    apply String.eqb_eq in E. congruence.
  - destruct (String.eqb k k') eqn:E; simpl.
    + apply String.eqb_eq in E. subst k'.
      destruct (String.eqb k2 k) eqn:E2; [|reflexivity].
      apply String.eqb_eq in E2. congruence.
    + destruct (String.eqb k2 k'); [reflexivity|exact IH].
Qed.

Lemma heap_set_same (h : heap) (l : nat) : heap_set h l (heap_get h l) = h.
Proof.
  unfold heap_get. revert l. induction h as [|o h IH]; intros [|l]; simpl;
    try reflexivity. f_equal. apply IH.
Qed.

Lemma map_heap_set {B} (f : obj -> B) (h : heap) (l : nat) (o : obj) :
  f (heap_get h l) = f o -> map f (heap_set h l o) = map f h.
Proof.
  unfold heap_get. revert l. induction h as [|o' h IH]; intros [|l] Hf;
    simpl in *; try reflexivity.
  - rewrite Hf. reflexivity.
  - f_equal. apply IH. exact Hf.
Qed.

Lemma map_heap_get {B} (f : obj -> B) (d : B) (h : heap) (l : nat) :
  f [] = d -> f (heap_get h l) = nth l (map f h) d.
Proof.
  intro Hd. unfold heap_get. rewrite <- Hd. symmetry. apply map_nth.
Qed.

(** The non-string values of every object of the heap. *)
Definition nonstr_obj (o : obj) : list (option jsval) :=
  map (fun kv => match snd kv with JStr _ => None | v => Some v end) o.

Definition nonstrings (h : heap) : list (list (option jsval)) := map nonstr_obj h.

Lemma obj_set_nonstr (o : obj) (k s' : string) :
  In k (map fst o) ->
  (exists s, obj_get o k = JStr s) ->
  nonstr_obj (obj_set o k (JStr s')) = nonstr_obj o.
Proof.
  induction o as [|[k0 v0] o IH]; simpl; [intros []|].
  intros Hin [s Hs]. destruct (String.eqb k k0) eqn:E; simpl.
  - subst v0. reflexivity.
  - f_equal. apply IH; [|exists s; exact Hs].
    destruct Hin as [->|Hin]; [|exact Hin].
    rewrite String.eqb_refl in E. discriminate.
Qed.

(** What [walk] knows of the node it visits: its value is the current
    value of [parent[key]] and [key] is a key of the parent. *)
Definition visit_pre (pk : option (nat * string)) (node : jsval) (h : heap)
  : Prop :=
  match pk with
  | Some (l, k) => In k (map fst (heap_get h l)) /\ node = obj_get (heap_get h l) k
  | None => True
  end.

(** What the escaping pass keeps. *)
Definition kept (h' h : heap) : Prop :=
  shape h' = shape h /\ readmes h' = readmes h /\ nonstrings h' = nonstrings h.

Lemma maybeEscape_keeps (pk : option (nat * string)) (node : jsval) (h : heap) :
  visit_pre pk node h -> kept (maybeEscape pk node h) h.
Proof.
  unfold kept.
  destruct node as [s| | | | | |]; simpl; try (repeat split; reflexivity).
  destruct pk as [[l k]|]; simpl; [|repeat split; reflexivity].
  intros [Hin Hnode].
  destruct (String.eqb k "readme") eqn:E.
  - rewrite Hnode, obj_set_get_same by exact Hin. rewrite heap_set_same.
    repeat split; reflexivity.
  - split; [|split].
    + unfold shape. apply map_heap_set. symmetry. apply obj_set_keys. exact Hin.
    + unfold readmes. apply map_heap_set. symmetry. apply obj_get_set_other.
      intro H. subst. rewrite String.eqb_refl in E. discriminate.
    + unfold nonstrings. apply map_heap_set. symmetry. apply obj_set_nonstr;
        [exact Hin | exists s; symmetry; exact Hnode].
Qed.

Lemma shape_get (h h' : heap) (l : nat) :
  shape h = shape h' -> map fst (heap_get h l) = map fst (heap_get h' l).
Proof.
  unfold shape. intro H.
  rewrite (map_heap_get (map fst) [] h l eq_refl),
          (map_heap_get (map fst) [] h' l eq_refl).
  unfold obj in *. rewrite H. reflexivity.
Qed.

Lemma kept_trans (h1 h2 h3 : heap) : kept h1 h2 -> kept h2 h3 -> kept h1 h3.
Proof.
  unfold kept. intros (A1 & B1 & C1) (A2 & B2 & C2).
  rewrite A1, B1, C1. auto.
Qed.

Lemma kept_refl (h : heap) : kept h h.
Proof. repeat split. Qed.

(** The mutable walk of [traverse] with [maybeEscape] keeps the keys of
    every object, every [readme] value and every non-string value. *)
Lemma walk_keeps (fuel : nat) :
  forall parents pk node h,
    visit_pre pk node h ->
    kept (walk maybeEscape fuel parents pk node h) h.
Proof.
  induction fuel as [|f IH]; intros parents pk node h Hpre; simpl;
    [apply kept_refl|].
  pose proof (maybeEscape_keeps pk node h Hpre) as H1.
  destruct node as [| | | | | |l]; try exact H1.
  destruct (existsb (Nat.eqb l) parents); [exact H1|].
  set (h1 := maybeEscape pk (JRef l) h) in *.
  assert (Hfold : forall ks h2,
             (forall k, In k ks -> In k (map fst (heap_get h1 l))) ->
             kept h2 h1 ->
             kept (fold_left (fun h3 k => walk maybeEscape f (l :: parents)
                                 (Some (l, k)) (obj_get (heap_get h3 l) k) h3)
                      ks h2) h1).
  { induction ks as [|k ks IHks]; intros h2 Hks H2; simpl; [exact H2|].
    assert (Hpre2 : visit_pre (Some (l, k)) (obj_get (heap_get h2 l) k) h2).
    { simpl. split; [|reflexivity].
      destruct H2 as [Hs2 _].
      rewrite (shape_get h2 h1 l Hs2). apply Hks. left. reflexivity. }
    apply IHks.
    - intros k' Hk'. apply Hks. right. exact Hk'.
    - eapply kept_trans; [apply IH; exact Hpre2 | exact H2]. }
  eapply kept_trans; [|exact H1].
  apply Hfold; [intros k Hk; exact Hk | apply kept_refl].
Qed.

(** X7: the escaping pass [traverse(truncated).forEach(maybeEscape)]
    with which formatPkg ends leaves the [readme] field of every object
    as it was, in particular the top-level [readme] of the document.  It
    holds for every document [truncated] in every heap, so for whatever
    formatPkg and truncatePackage build from any package, and for every
    depth bound [fuel] of the walk. *)
Theorem formatPkg_readme_verbatim (fuel : nat) (truncated : jsval) (h : heap) :
  readmes (forEach_maybeEscape fuel truncated h) = readmes h
  /\ get_path (forEach_maybeEscape fuel truncated h) truncated ["readme"]
     = get_path h truncated ["readme"].
Proof.
  pose proof (walk_keeps fuel [] None truncated h I) as (_ & Hr & _).
  fold (forEach_maybeEscape fuel truncated h) in Hr.
  set (h1 := forEach_maybeEscape fuel truncated h) in *.
  split; [exact Hr|].
  destruct truncated as [| | | | | |l]; try reflexivity. simpl.
  unfold readmes in Hr.
  rewrite (map_heap_get (fun o => obj_get o "readme") JUndef h1 l eq_refl),
          (map_heap_get (fun o => obj_get o "readme") JUndef h l eq_refl).
  unfold obj in *. rewrite Hr. reflexivity.
Qed.

(** X8: the escaping pass with which formatPkg ends adds or removes no
    key of any object and changes no value other than strings (numbers,
    booleans, null, undefined and object references stay as they are),
    for every document in every heap and every depth bound of the walk. *)
Theorem formatPkg_escape_keeps_structure (fuel : nat) (truncated : jsval) (h : heap) :
  shape (forEach_maybeEscape fuel truncated h) = shape h
  /\ nonstrings (forEach_maybeEscape fuel truncated h) = nonstrings h.
Proof.
  pose proof (walk_keeps fuel [] None truncated h I) as (Hs & _ & Hn).
  split; assumption.
Qed.

End FormatPkgMore.

(** ** Properties of the repository, homepage and main helpers *)

Module PkgFieldsProps.
Import Js FormatPkg PkgFields.
Local Open Scope string_scope.

Lemma strip_prefix_app (p s : string) : strip_prefix p (p ++ s) = Some s.
Proof. induction p as [|a p IH]; simpl; [reflexivity|]. rewrite Ascii.eqb_refl. exact IH. Qed.

Lemma strip_prefix_some (p s r : string) : strip_prefix p s = Some r -> s = p ++ r.
Proof.
  revert s. induction p as [|a p IH]; intros [|b s] H; simpl in *;
    try congruence.
  destruct (Ascii.eqb a b) eqn:E; [|discriminate].
  apply Ascii.eqb_eq in E. subst. f_equal. apply IH. exact H.
Qed.

Lemma ob_some {A B : Type} (o : option A) (f : A -> option B) (r : B) :
  ob o f = Some r -> exists a, o = Some a /\ f a = Some r.
Proof. destruct o as [a|]; simpl; [eauto|discriminate]. Qed.

Lemma first_some_some {A B : Type} (f : A -> option B) (xs : list A) (r : B) :
  first_some f xs = Some r -> exists x, In x xs /\ f x = Some r.
Proof.
  induction xs as [|x xs IH]; simpl; [discriminate|].
  destruct (f x) eqn:E; intros H.
  - inversion H; subst. eauto.
  - destruct (IH H) as (y & Hy & Hf). eauto.
Qed.

Lemma dot_some (s r : string) :
  dot s = Some r -> exists c, line_terminator c = false /\ s = String c r.
Proof.
  destruct s as [|c s]; simpl; [discriminate|].
  destruct (line_terminator c) eqn:E; [discriminate|]. intros H; inversion H; eauto.
Qed.

Lemma split_seg_app (a b : string) :
  no_slash a = true -> (b = "" \/ exists t, b = String "/" t) ->
  split_seg (a ++ b) = (a, b).
Proof.
  intros Ha Hb. induction a as [|c a IH]; simpl.
  - destruct Hb as [->|[t ->]]; reflexivity.
  - simpl in Ha. apply andb_prop in Ha as [Hc Ha].
    apply negb_true_iff in Hc. rewrite Hc, (IH Ha). reflexivity.
Qed.

Lemma split_seg_spec (s a b : string) :
  split_seg s = (a, b) ->
  s = a ++ b /\ no_slash a = true /\ (b = "" \/ exists t, b = String "/" t).
Proof.
  revert a b. induction s as [|c s IH]; intros a b H; simpl in H.
  - inversion H; subst. auto.
  - destruct (Ascii.eqb c "/") eqn:E.
    + inversion H; subst. apply Ascii.eqb_eq in E. subst. eauto.
    + destruct (split_seg s) as [a' b'] eqn:Es. injection H as <- <-.
      destruct (IH a' b' eq_refl) as (-> & Ha & Hb).
      simpl. rewrite E, Ha. auto.
Qed.

(** The shape of the third capture [(\/.+)?]. *)
Definition path_ok (path : string) : Prop :=
  path = "" \/
  exists t, path = String "/" t /\ t <> "" /\ no_line_terminator t = true.

Lemma user_project_path_app (user project path : string) :
  user <> "" -> no_slash user = true ->
  project <> "" -> no_slash project = true -> path_ok path ->
  user_project_path (user ++ "/" ++ project ++ path) = Some (user, project, path).
Proof.
  intros Hu Hus Hp Hps Hpath. unfold user_project_path.
  rewrite (split_seg_app user ("/" ++ project ++ path))
    by first [exact Hus | right; eexists; reflexivity].
  destruct user as [|cu u]; [congruence|]. simpl.
  rewrite split_seg_app.
  2: exact Hps.
  2: destruct Hpath as [->|(t & -> & _)]; eauto.
  destruct project as [|cp pr]; [congruence|].
  destruct Hpath as [->|(t & -> & Ht & Hlt)]; [reflexivity|].
  simpl. apply String.eqb_neq in Ht. rewrite Ht, Hlt. reflexivity.
Qed.

Lemma user_project_path_some (s user project path : string) :
  user_project_path s = Some (user, project, path) ->
  s = user ++ "/" ++ project ++ path /\ user <> "" /\ no_slash user = true /\
  project <> "" /\ no_slash project = true /\ path_ok path.
Proof.
  unfold user_project_path.
  destruct (split_seg s) as [u r1] eqn:E1.
  destruct (split_seg_spec _ _ _ E1) as (-> & Hu & _).
  destruct u as [|cu u]; [discriminate|].
  destruct r1 as [|c r2]; [discriminate|].
  destruct (Ascii.eqb c "/") eqn:Ec; [|discriminate].
  apply Ascii.eqb_eq in Ec. subst c.
  destruct (split_seg r2) as [p r3] eqn:E2.
  destruct (split_seg_spec _ _ _ E2) as (-> & Hp & Hr3).
  destruct p as [|cp p]; [discriminate|].
  destruct r3 as [|c' t].
  - intros H; inversion H; subst. repeat split; auto; try discriminate.
    left; reflexivity.
  - destruct (Ascii.eqb c' "/" && negb (String.eqb t "") && no_line_terminator t)
      eqn:Ek; [|discriminate].
    intros H; inversion H; subst.
    apply andb_prop in Ek as [Ek Hlt]. apply andb_prop in Ek as [Ec' Ht].
    apply Ascii.eqb_eq in Ec'. apply negb_true_iff, String.eqb_neq in Ht. subst c'.
    repeat split; auto; try discriminate. right. eauto.
Qed.

(** X9: a GitHub url, with or without [www.], is read back into its
    user, project and path; the character between [github] and [com] may
    be any character but a line terminator, and [gitHead] defaults to
    ['master'] only when it is [undefined]. *)
Theorem getGitHubRepoInfo_roundtrip (www : string) (c : ascii)
    (user project path : string) (gitHead : jsval) :
  In www ["www."; ""] -> line_terminator c = false ->
  user <> "" -> no_slash user = true ->
  project <> "" -> no_slash project = true -> path_ok path ->
  getGitHubRepoInfo
    (JStr ("https://" ++ www ++ "github" ++ String c ("com/" ++ user ++ "/" ++ project ++ path)))
    gitHead
  = Some {| gh_user := user; gh_project := project; gh_path := path;
            gh_head := default_head gitHead |}.
Proof.
  intros Hw Hc Hu Hus Hp Hps Hpath.
  pose proof (user_project_path_app _ _ _ Hu Hus Hp Hps Hpath) as Hupp.
  unfold getGitHubRepoInfo, github_re.
  simpl in Hupp.
  destruct Hw as [<-|[<-|[]]]; simpl; rewrite Hc; simpl; rewrite Hupp; reflexivity.
Qed.

Lemma getGitHubRepoInfo_roundtrip_witness :
  (In "www." ["www."; ""] /\ line_terminator "."%char = false /\
   "algolia" <> "" /\ no_slash "algolia" = true /\
   "npm-search" <> "" /\ no_slash "npm-search" = true /\ path_ok "/tree/master")
  /\ getGitHubRepoInfo (JStr "https://www.github.com/algolia/npm-search/tree/master") JUndef
     = Some {| gh_user := "algolia"; gh_project := "npm-search";
               gh_path := "/tree/master"; gh_head := JStr "master" |}.
Proof.
  assert (Hpath : path_ok "/tree/master")
    by (right; exists "tree/master"; split; [reflexivity|split; [discriminate|reflexivity]]).
  split.
  - repeat split; try discriminate; try reflexivity; auto. left; reflexivity.
  - apply (getGitHubRepoInfo_roundtrip "www." "."%char "algolia" "npm-search"
             "/tree/master" JUndef);
      try discriminate; try reflexivity; auto. left; reflexivity.
Defined.

(** X10: whatever getGitHubRepoInfo accepts is a non-empty string of the
    form https://[www.]github?com/user/project[path], with user and
    project non-empty and free of slashes and the path empty or a slash
    followed by a non-empty line. *)
Theorem getGitHubRepoInfo_sound (repository gitHead : jsval) (i : github_info) :
  getGitHubRepoInfo repository gitHead = Some i ->
  exists www c,
    In www ["www."; ""] /\ line_terminator c = false /\
    repository = JStr ("https://" ++ www ++ "github"
                       ++ String c ("com/" ++ gh_user i ++ "/" ++ gh_project i ++ gh_path i)) /\
    gh_user i <> "" /\ no_slash (gh_user i) = true /\
    gh_project i <> "" /\ no_slash (gh_project i) = true /\
    path_ok (gh_path i) /\ gh_head i = default_head gitHead.
Proof.
  unfold getGitHubRepoInfo.
  destruct repository as [r| | | | | |]; try discriminate.
  destruct (String.eqb r "") eqn:Er; [discriminate|].
  destruct (github_re r) as [[[user project] path]|] eqn:Eg; [|discriminate].
  intros H; inversion H; subst i; simpl. clear H.
  unfold github_re in Eg.
  apply ob_some in Eg as (s1 & E1 & Eg). apply strip_prefix_some in E1. subst r.
  apply first_some_some in Eg as (www & Hw & Eg).
  apply ob_some in Eg as (s2 & E2 & Eg). apply strip_prefix_some in E2. subst s1.
  apply ob_some in Eg as (s3 & E3 & Eg). apply strip_prefix_some in E3. subst s2.
  apply ob_some in Eg as (s4 & E4 & Eg). apply dot_some in E4 as (c & Hc & ->).
  apply ob_some in Eg as (s5 & E5 & Eg). apply strip_prefix_some in E5. subst s4.
  apply user_project_path_some in Eg as (-> & Hu & Hus & Hp & Hps & Hpath).
  exists www, c. repeat split; auto.
Qed.

Lemma getGitHubRepoInfo_sound_witness :
  getGitHubRepoInfo (JStr "https://githubXcom/a/b") JNull
    = Some {| gh_user := "a"; gh_project := "b"; gh_path := ""; gh_head := JNull |}
  /\ exists www c,
    In www ["www."; ""] /\ line_terminator c = false /\
    JStr "https://githubXcom/a/b"
      = JStr ("https://" ++ www ++ "github" ++ String c ("com/" ++ "a" ++ "/" ++ "b" ++ "")) /\
    "a" <> "" /\ no_slash "a" = true /\ "b" <> "" /\ no_slash "b" = true /\
    path_ok "" /\ JNull = default_head JNull.
Proof.
  split; [reflexivity|].
  exact (getGitHubRepoInfo_sound (JStr "https://githubXcom/a/b") JNull
           {| gh_user := "a"; gh_project := "b"; gh_path := ""; gh_head := JNull |}
           eq_refl).
Defined.

(** X11: a GitHub url that ends in a slash right after the project is
    rejected (null), although it names a user and a project. *)
Theorem getGitHubRepoInfo_trailing_slash (www : string) (c : ascii)
    (user project : string) (gitHead : jsval) :
  In www ["www."; ""] -> no_slash user = true -> no_slash project = true ->
  getGitHubRepoInfo
    (JStr ("https://" ++ www ++ "github" ++ String c ("com/" ++ user ++ "/" ++ project ++ "/")))
    gitHead = None.
Proof.
  intros Hw Hu Hp.
  assert (Hupp : user_project_path (user ++ "/" ++ project ++ "/") = None).
  { unfold user_project_path.
    rewrite (split_seg_app user ("/" ++ project ++ "/"))
      by first [exact Hu | right; eexists; reflexivity].
    destruct user as [|cu u]; [reflexivity|]. simpl.
    rewrite (split_seg_app project "/")
      by first [exact Hp | right; eexists; reflexivity].
    destruct project; reflexivity. }
  unfold getGitHubRepoInfo, github_re.
  simpl in Hupp.
  destruct Hw as [<-|[<-|[]]]; simpl; destruct (line_terminator c); simpl;
    try reflexivity; rewrite Hupp; reflexivity.
Qed.

Lemma getGitHubRepoInfo_trailing_slash_witness :
  (In "" ["www."; ""] /\ no_slash "algolia" = true /\ no_slash "npm-search" = true)
  /\ getGitHubRepoInfo (JStr "https://github.com/algolia/npm-search/") JUndef = None.
Proof.
  split; [split; [right; left; reflexivity|split; reflexivity]|].
  apply (getGitHubRepoInfo_trailing_slash "" "."%char "algolia" "npm-search" JUndef);
    [right; left; reflexivity|reflexivity|reflexivity].
Defined.

(** X12: whatever getRepositoryInfoFromHttpUrl accepts is a url
    http(s)://[www.]domain?tld/user/project[path] matched by the whole
    regular expression: the domain is github, gitlab or bitbucket, the
    tld com or org, separated by any character but a line terminator;
    the host returned is domain.tld, one of six names; user and project
    are non-empty and free of slashes and the path is empty or a slash
    followed by a non-empty line. *)
Theorem repoInfoFromHttpUrl_sound (repository : string) (i : repo_info) :
  getRepositoryInfoFromHttpUrl repository = Some i ->
  exists scheme www domain c domainTld,
    In scheme ["https://"; "http://"] /\ In www ["www."; ""] /\
    In domain ["github"; "gitlab"; "bitbucket"] /\ In domainTld ["com"; "org"] /\
    line_terminator c = false /\
    repository = scheme ++ www ++ domain
                 ++ String c (domainTld ++ "/" ++ ri_user i ++ "/" ++ ri_project i ++ ri_path i) /\
    ri_host i = domain ++ "." ++ domainTld /\
    In (ri_host i) ["github.com"; "github.org"; "gitlab.com"; "gitlab.org";
                    "bitbucket.com"; "bitbucket.org"] /\
    ri_user i <> "" /\ no_slash (ri_user i) = true /\
    ri_project i <> "" /\ no_slash (ri_project i) = true /\ path_ok (ri_path i).
Proof.
  unfold getRepositoryInfoFromHttpUrl, repo_url_re.
  destruct (first_some _ _) as [[[[[domain tld] user] project] path]|] eqn:E;
    [|discriminate].
  intros H; inversion H; subst i; simpl. clear H.
  apply first_some_some in E as (scheme & Hs & E).
  apply ob_some in E as (s1 & E1 & E). apply strip_prefix_some in E1. subst repository.
  apply first_some_some in E as (www & Hw & E).
  apply ob_some in E as (s2 & E2 & E). apply strip_prefix_some in E2. subst s1.
  apply first_some_some in E as (dom & Hdom & E).
  apply ob_some in E as (s3 & E3 & E). apply strip_prefix_some in E3. subst s2.
  apply ob_some in E as (s4 & E4 & E). apply dot_some in E4 as (c & Hc & ->).
  apply first_some_some in E as (t & Ht & E).
  apply ob_some in E as (s5 & E5 & E). apply strip_prefix_some in E5. subst s4.
  apply ob_some in E as (s6 & E6 & E). apply strip_prefix_some in E6. subst s5.
  apply ob_some in E as ([[u p] pa] & E7 & E).
  injection E as <- <- <- <- <-.
  apply user_project_path_some in E7 as (-> & Hu & Hus & Hp & Hps & Hpath).
  exists scheme, www, dom, c, t.
  repeat split; auto.
  destruct Hdom as [<-|[<-|[<-|[]]]]; destruct Ht as [<-|[<-|[]]]; simpl; tauto.
Qed.

Lemma repoInfoFromHttpUrl_sound_witness :
  getRepositoryInfoFromHttpUrl "http://www.gitlab-org/user/repo/tree/master/packages/a"
    = Some {| ri_host := "gitlab.org"; ri_user := "user"; ri_project := "repo";
              ri_path := "/tree/master/packages/a" |}
  /\ In "gitlab.org" ["github.com"; "github.org"; "gitlab.com"; "gitlab.org";
                      "bitbucket.com"; "bitbucket.org"].
Proof.
  split; [reflexivity|].
  destruct (repoInfoFromHttpUrl_sound
              "http://www.gitlab-org/user/repo/tree/master/packages/a"
              {| ri_host := "gitlab.org"; ri_user := "user"; ri_project := "repo";
                 ri_path := "/tree/master/packages/a" |} eq_refl)
    as (sc & w & d & c & t & _ & _ & _ & _ & _ & _ & _ & Hin & _).
  exact Hin.
Defined.

(** X13: an http or https url on one of the three hosts, with or without
    [www.], is read back into host, user, project and path. *)
Theorem repoInfoFromHttpUrl_roundtrip (scheme www domain domainTld : string)
    (c : ascii) (user project path : string) :
  In scheme ["https://"; "http://"] -> In www ["www."; ""] ->
  In domain ["github"; "gitlab"; "bitbucket"] -> In domainTld ["com"; "org"] ->
  line_terminator c = false ->
  user <> "" -> no_slash user = true ->
  project <> "" -> no_slash project = true -> path_ok path ->
  getRepositoryInfoFromHttpUrl
    (scheme ++ www ++ domain ++ String c (domainTld ++ "/" ++ user ++ "/" ++ project ++ path))
  = Some {| ri_host := domain ++ "." ++ domainTld; ri_user := user;
            ri_project := project; ri_path := path |}.
Proof.
  intros Hs Hw Hd Ht Hc Hu Hus Hp Hps Hpath.
  pose proof (user_project_path_app _ _ _ Hu Hus Hp Hps Hpath) as Hupp.
  simpl in Hupp.
  unfold getRepositoryInfoFromHttpUrl, repo_url_re.
  destruct Hs as [<-|[<-|[]]]; destruct Hw as [<-|[<-|[]]];
    destruct Hd as [<-|[<-|[<-|[]]]]; destruct Ht as [<-|[<-|[]]];
    simpl; rewrite Hc; simpl; rewrite Hupp; reflexivity.
Qed.

Lemma repoInfoFromHttpUrl_roundtrip_witness :
  (In "https://" ["https://"; "http://"] /\ In "" ["www."; ""] /\
   In "bitbucket" ["github"; "gitlab"; "bitbucket"] /\ In "org" ["com"; "org"] /\
   line_terminator "."%char = false /\ "user" <> "" /\ no_slash "user" = true /\
   "repo" <> "" /\ no_slash "repo" = true /\ path_ok "")
  /\ getRepositoryInfoFromHttpUrl "https://bitbucket.org/user/repo"
     = Some {| ri_host := "bitbucket.org"; ri_user := "user";
               ri_project := "repo"; ri_path := "" |}.
Proof.
  split.
  - simpl. repeat split; auto; try discriminate. left; reflexivity.
  - apply (repoInfoFromHttpUrl_roundtrip "https://" "" "bitbucket" "org" "."%char
             "user" "repo" ""); simpl; auto; try discriminate. left; reflexivity.
Defined.

(** Occurrence of [sub] in [s]. *)
Definition occurs (sub s : string) : Prop := exists pre post, s = pre ++ sub ++ post.

Lemma prefix_true_iff (a s : string) :
  String.prefix a s = true <-> exists t, s = a ++ t.
Proof.
  revert s. induction a as [|x a IH]; intros [|y s]; simpl.
  - split; eauto.
  - split; eauto.
  - split; [discriminate|intros [t Ht]; discriminate].
  - destruct (ascii_dec x y) as [->|Hxy].
    + rewrite IH. split; intros [t Ht]; exists t; [subst; reflexivity|].
      injection Ht; auto.
    + split; [discriminate|intros [t Ht]; injection Ht; intros; congruence].
Qed.

Lemma index0_cons (sub s : string) (b : ascii) :
  String.index 0 sub (String b s)
  = if String.prefix sub (String b s) then Some 0%nat
    else match String.index 0 sub s with Some n => Some (S n) | None => None end.
Proof. reflexivity. Qed.

Lemma index0_some_occurs (sub s : string) (n : nat) :
  String.index 0 sub s = Some n -> occurs sub s.
Proof.
  unfold occurs. revert n. induction s as [|b s IH]; intros n.
  - simpl. destruct sub; [|intros H; discriminate H]. intros _. exists "", "". reflexivity.
  - rewrite index0_cons. destruct (String.prefix sub (String b s)) eqn:Ep.
    + intros _. apply prefix_true_iff in Ep as [t Ht]. exists "", t. exact Ht.
    + destruct (String.index 0 sub s) as [m|] eqn:Ei; [|intros H; discriminate H].
      intros _. destruct (IH m eq_refl) as (pre & post & Hs).
      exists (String b pre), post. rewrite Hs. reflexivity.
Qed.

Lemma occurs_index0 (sub s : string) :
  occurs sub s -> String.index 0 sub s <> None.
Proof.
  intros (pre & post & Hs). revert s Hs.
  induction pre as [|b pre IH]; intros s Hs.
  - subst s. destruct sub as [|a sub].
    + destruct post; simpl; discriminate.
    + simpl (EmptyString ++ _). rewrite index0_cons.
      replace (String.prefix (String a sub) (String a (sub ++ post))) with true
        by (symmetry; apply prefix_true_iff; exists post; reflexivity).
      discriminate.
  - subst s. simpl (String b pre ++ _). rewrite index0_cons.
    destruct (String.prefix sub (String b (pre ++ sub ++ post))); [discriminate|].
    destruct (String.index 0 sub (pre ++ sub ++ post)) eqn:Ei; [discriminate|].
    exfalso. exact (IH _ eq_refl Ei).
Qed.

Lemma index0_none_iff (sub s : string) :
  String.index 0 sub s = None <-> ~ occurs sub s.
Proof.
  split.
  - intros H Ho. exact (occurs_index0 _ _ Ho H).
  - intros H. destruct (String.index 0 sub s) eqn:E; [|reflexivity].
    exfalso. exact (H (index0_some_occurs _ _ _ E)).
Qed.

(** X14: for a string homepage and a string repository, getHomePage
    drops the homepage (null) exactly when the homepage is empty or the
    repository is non-empty and occurs in it; otherwise the homepage is
    returned as it is. *)
Theorem getHomePage_null_iff (homepage repository : string) :
  (getHomePage (JStr homepage) (JStr repository) = JNull
   <-> homepage = "" \/ (repository <> "" /\ occurs repository homepage))
  /\ (getHomePage (JStr homepage) (JStr repository) = JNull
      \/ getHomePage (JStr homepage) (JStr repository) = JStr homepage).
Proof.
  unfold getHomePage, indexOf. simpl.
  destruct (String.eqb homepage "") eqn:Eh; simpl.
  { apply String.eqb_eq in Eh. split; [split; auto|auto]. }
  apply String.eqb_neq in Eh.
  destruct (String.eqb repository "") eqn:Er; simpl.
  { apply String.eqb_eq in Er. split; [|auto].
    split; [discriminate|intros [H|[H _]]; contradiction]. }
  apply String.eqb_neq in Er.
  destruct (String.index 0 repository homepage) as [n|] eqn:Ei; simpl.
  - assert (Hn : (Z.of_nat n <? 0)%Z = false) by (apply Z.ltb_ge; lia).
    rewrite Hn. split; [|auto]. split; [intros _; right; split; auto|auto].
    exact (index0_some_occurs _ _ _ Ei).
  - split; [|auto]. split; [discriminate|].
    intros [H|[_ Ho]]; [contradiction|].
    exfalso. exact (proj1 (index0_none_iff _ _) Ei Ho).
Qed.

(** Strings as lists of characters: append. *)
Lemma list_ascii_of_string_app (a b : string) :
  list_ascii_of_string (a ++ b) = (list_ascii_of_string a ++ list_ascii_of_string b)%list.
Proof. induction a as [|c a IH]; simpl; [reflexivity|]. rewrite IH. reflexivity. Qed.

Lemma string_of_list_ascii_app (a b : list ascii) :
  string_of_list_ascii (a ++ b) = string_of_list_ascii a ++ string_of_list_ascii b.
Proof. induction a as [|c a IH]; simpl; [reflexivity|]. rewrite IH. reflexivity. Qed.

Lemma str_rev_app (a b : string) : str_rev (a ++ b) = str_rev b ++ str_rev a.
Proof.
  unfold str_rev. rewrite list_ascii_of_string_app, rev_app_distr.
  apply string_of_list_ascii_app.
Qed.

Lemma endsWith_app (a b : string) : endsWith (a ++ b) b = true.
Proof.
  unfold endsWith. rewrite str_rev_app. apply prefix_true_iff. eexists. reflexivity.
Qed.

Lemma string_app_assoc (a b c : string) : a ++ b ++ c = (a ++ b) ++ c.
Proof. induction a as [|x a IH]; simpl; [reflexivity|]. rewrite IH. reflexivity. Qed.

Lemma string_length_app (a b : string) :
  String.length (a ++ b) = (String.length a + String.length b)%nat.
Proof. induction a as [|x a IH]; simpl; [reflexivity|]. rewrite IH. reflexivity. Qed.

Lemma substring_0_app (a b : string) : substring 0 (String.length a) (a ++ b) = a.
Proof.
  induction a as [|x a IH]; simpl; [destruct b; reflexivity|]. rewrite IH. reflexivity.
Qed.

Lemma drop_last_app (n : nat) (a b : string) :
  String.length b = n -> drop_last n (a ++ b) = a.
Proof.
  intros Hb. unfold drop_last. rewrite string_length_app, Hb.
  replace (String.length a + n - n)%nat with (String.length a) by lia.
  apply substring_0_app.
Qed.

(** X15: when neither [types] nor [typings] is truthy and the first main
    is [base.js], getTypes proposes [base.d.ts]; for the default main of
    a package without one, [index.d.ts]. *)
Theorem getTypes_dtsMain (types typings : jsval) (main : main_field)
    (base : string) (rest : list string) :
  truthy types = false -> truthy typings = false ->
  getMains main = (base ++ ".js") :: rest ->
  getTypes types typings main = TsPossible (base ++ ".d.ts").
Proof.
  intros Ht Hty Hm. unfold getTypes. rewrite Ht, Hty, Hm, endsWith_app.
  unfold replace_js_end.
  replace (base ++ ".js") with ((base ++ ".") ++ "js")
    by (rewrite <- string_app_assoc; reflexivity).
  rewrite endsWith_app, drop_last_app by reflexivity.
  rewrite <- string_app_assoc. reflexivity.
Qed.

Lemma getTypes_dtsMain_witness :
  (truthy JUndef = false /\ truthy (JStr "") = false
   /\ getMains (MainValue JUndef) = ("index" ++ ".js") :: [])
  /\ getTypes JUndef (JStr "") (MainValue JUndef) = TsPossible "index.d.ts".
Proof.
  split; [repeat split|].
  exact (getTypes_dtsMain JUndef (JStr "") (MainValue JUndef) "index" [] eq_refl eq_refl eq_refl).
Defined.

(** The entries one main contributes to the module types. *)
Lemma moduleTypes_entries (module type : jsval) (mains : list string) :
  Forall (fun t => t = "esm" \/ t = "cjs")
    (flat_map (fun m =>
      ((if is_string module || str_eq type "module" || endsWith m ".mjs"
        then ["esm"] else [])
       ++ (if str_eq type "commonjs" || endsWith m ".cjs" then ["cjs"] else []))%list)
      mains).
Proof.
  induction mains as [|m ms IH]; simpl; [constructor|].
  apply Forall_app. split; [|exact IH].
  apply Forall_app. split.
  - destruct (is_string module || str_eq type "module" || endsWith m ".mjs");
      [apply Forall_cons; [left; reflexivity|constructor]|constructor].
  - destruct (str_eq type "commonjs" || endsWith m ".cjs"); [apply Forall_cons; [right; reflexivity|constructor]|constructor].
Qed.

(** X16: getModuleTypes never returns an empty list; its entries are
    ['esm'], ['cjs'] or ['unknown'], and ['unknown'] only ever comes
    alone. *)
Theorem getModuleTypes_shape (module type : jsval) (main : main_field) :
  getModuleTypes module type main <> [] /\
  Forall (fun t => t = "esm" \/ t = "cjs" \/ t = "unknown")
    (getModuleTypes module type main) /\
  (In "unknown" (getModuleTypes module type main) ->
   getModuleTypes module type main = ["unknown"]).
Proof.
  unfold getModuleTypes.
  pose proof (moduleTypes_entries module type (getMains main)) as Hf.
  destruct (flat_map _ (getMains main)) as [|t ts] eqn:E.
  - split; [discriminate|]. split; [|auto].
    apply Forall_cons; [right; right; reflexivity|constructor].
  - split; [discriminate|]. split.
    + eapply Forall_impl; [|exact Hf]. simpl. tauto.
    + intros Hin. exfalso. rewrite Forall_forall in Hf.
      destruct (Hf _ Hin) as [H|H]; discriminate H.
Qed.

(** X17: when [pkg.module] is a string or [pkg.type] is ['module'],
    every main contributes one ['esm']: there are as many ['esm'] entries
    as mains (or the single ['unknown'] when there is no main). *)
Theorem getModuleTypes_esm_per_main (module type : jsval) (main : main_field) :
  is_string module = true \/ str_eq type "module" = true ->
  count_occ string_dec (getModuleTypes module type main) "esm"
  = match getMains main with [] => 0%nat | ms => List.length ms end.
Proof.
  intros Hm. unfold getModuleTypes.
  assert (Hc : forall ms : list string,
    count_occ string_dec
      (flat_map (fun m =>
        ((if is_string module || str_eq type "module" || endsWith m ".mjs"
          then ["esm"] else [])
         ++ (if str_eq type "commonjs" || endsWith m ".cjs" then ["cjs"] else []))%list)
        ms) "esm" = List.length ms).
  { induction ms as [|m ms IH]; simpl; [reflexivity|].
    rewrite count_occ_app, count_occ_app, IH.
    replace (is_string module || str_eq type "module" || endsWith m ".mjs") with true
      by (destruct Hm as [-> | ->]; simpl; [reflexivity|];
          destruct (is_string module); reflexivity).
    destruct (str_eq type "commonjs" || endsWith m ".cjs"); simpl; reflexivity. }
  destruct (getMains main) as [|m ms] eqn:Em; simpl; [reflexivity|].
  specialize (Hc (m :: ms)). simpl in Hc.
  destruct (((if is_string module || str_eq type "module" || endsWith m ".mjs"
              then ["esm"] else []) ++ _)%list ++ _)%list eqn:E.
  - rewrite <- Hc. reflexivity.
  - exact Hc.
Qed.

Lemma getModuleTypes_esm_per_main_witness :
  (is_string JUndef = true \/ str_eq (JStr "module") "module" = true)
  /\ count_occ string_dec
       (getModuleTypes JUndef (JStr "module") (MainArray [JStr "a.cjs"; JNull; JStr "b.js"]))
       "esm" = 2%nat.
Proof.
  split; [right; reflexivity|].
  exact (getModuleTypes_esm_per_main JUndef (JStr "module")
           (MainArray [JStr "a.cjs"; JNull; JStr "b.js"]) (or_intror eq_refl)).
Defined.

End PkgFieldsProps.
